(** * Batch: routing, pipelined execution and reply reconstruction

    A shallow embedding of [batch.go] (package [redis]): the [Batch]
    structure, [Put], [doBatch] and [RunBatch], followed by the properties
    of the batching engine.

    Conventions.
    - A Go [string] is a Rocq [string] (a sequence of bytes).
    - A Go [error] is [option string]: [None] is [nil], [Some m] an error
      whose [Error()] text is [m].
    - A [*redisNode] is [option nat]: [None] is the nil pointer, [Some a]
      the node at address [a]; pointer comparison is equality of addresses.
    - An [interface{}] value is an [iface]; [I_nil] is the nil interface.
    - A Go panic is an outcome of its own, never an [error]. *)

From Stdlib Require Import ZArith NArith Ascii String.
From stdpp Require Import base list strings.

Local Open Scope list_scope.

(** ** Values *)

Abbreviation error := (option string).

Abbreviation node_ptr := (option nat).

#[warnings="-register-all"]
Inductive iface : Type :=
| I_nil
| I_bytes (b : string)
| I_string (s : string)
| I_int (z : Z)
| I_list (l : list iface).

(** A slice that may be nil, as [var replies []interface{}] is:
    [None] is the nil slice. *)
Definition slice (A : Type) := option (list A).

Definition slice_append {A} (s : slice A) (x : A) : slice A :=
  match s with
  | None => Some [x]
  | Some l => Some (l ++ [x])
  end.

Definition slice_len {A} (s : slice A) : nat :=
  match s with
  | None => 0
  | Some l => length l
  end.

Definition slice_at {A} (s : slice A) (i : nat) : option A :=
  match s with
  | None => None
  | Some l => l !! i
  end.

(** ** The data model of [batch.go] *)

(** [cmd_err] is the field [err] of the Go struct (the name [err] goes to
    the field of [nodeBatch]). *)
Record nodeCommand := mkCommand {
  cmd : string;
  args : list iface;
  reply : iface;
  cmd_err : error
}.

(** [done] is the group's completion channel; what is sent on it is
    recorded in the executor's trace (see [event]). *)
Record nodeBatch := mkNodeBatch {
  node : node_ptr;
  cmds : list nodeCommand;
  err : error
}.

(** The [cluster] field of the Go struct points to the shared [Cluster];
    the embedding passes that cluster next to the batch. *)
Record Batch := mkBatch {
  batches : list nodeBatch;
  index : list nat
}.

(** The fields of [Cluster] that [Put] reads and writes. *)
Record Cluster := mkCluster {
  transactionEnable : bool;
  transactionNode : node_ptr
}.

(** What the topology collaborator answers during one call of [Put]:
    the result of [getRandomNode()] and of [getNodeByKey(arg)]. *)
Record Router := mkRouter {
  getRandomNode : node_ptr * error;
  getNodeByKey : iface → node_ptr * error
}.

(** One call of [Put]: the verb, the arguments, and what the topology
    collaborator answers while the call runs (the routing may change
    from one call to the next). *)
Record call := mkCall {
  call_router : Router;
  call_cmd : string;
  call_args : list iface
}.

(** The connection collaborator, as one executor sees it: the result of
    [flush()] and the result of the [i]-th call of [receive()]. *)
Record conn := mkConn {
  flush : error;
  receive : nat → iface * error
}.

(** What an executor does to its collaborators and to its [done]
    channel, in program order. *)
Inductive event : Type :=
| EvGetConn
| EvSend (c : string) (a : list iface)
| EvFlush
| EvReceive
| EvShutdown
| EvReleaseConn
| EvDone.

Definition NewBatch : Batch := mkBatch [] [].

(** [nodeCommand{cmd: cmd, args: args}]: reply and err are left at nil. *)
Definition new_command (c : string) (a : list iface) : nodeCommand :=
  mkCommand c a I_nil None.

Definition push_cmd (nc : nodeCommand) (nb : nodeBatch) : nodeBatch :=
  mkNodeBatch (node nb) (cmds nb ++ [nc]) (err nb).

Definition set_err (e : error) (nb : nodeBatch) : nodeBatch :=
  mkNodeBatch (node nb) (cmds nb) e.

Definition set_cmds (cs : list nodeCommand) (nb : nodeBatch) : nodeBatch :=
  mkNodeBatch (node nb) cs (err nb).

Definition set_reply (r : iface) (e : error) (nc : nodeCommand) : nodeCommand :=
  mkCommand (cmd nc) (args nc) r e.

Definition set_transactionEnable (v : bool) (cl : Cluster) : Cluster :=
  mkCluster v (transactionNode cl).

Definition set_transactionNode (n : node_ptr) (cl : Cluster) : Cluster :=
  mkCluster (transactionEnable cl) n.

Definition node_eqb (a b : node_ptr) : bool := bool_decide (a = b).

(** The type assertion [v.([]byte)]: [None] when it panics. *)
Definition assert_bytes (v : iface) : option string :=
  match v with
  | I_bytes k => Some k
  | _ => None
  end.

(** ** [strings.ToUpper] and [strings.EqualFold]

    Both library functions have a path for ASCII input, embedded here as
    they are written, and a path through the Unicode tables, which are
    not part of this package: the section takes that path as a
    parameter. *)

Definition byte_val (c : ascii) : N := N_of_ascii c.

Definition is_lower (c : ascii) : bool :=
  (97 <=? byte_val c)%N && (byte_val c <=? 122)%N.

Definition is_upper (c : ascii) : bool :=
  (65 <=? byte_val c)%N && (byte_val c <=? 90)%N.

Definition upper_byte (c : ascii) : ascii :=
  if is_lower c then ascii_of_N (byte_val c - 32) else c.

Fixpoint isASCII (s : string) : bool :=
  match s with
  | EmptyString => true
  | String c s' => (byte_val c <? 128)%N && isASCII s'
  end.

Fixpoint map_bytes (f : ascii → ascii) (s : string) : string :=
  match s with
  | EmptyString => EmptyString
  | String c s' => String (f c) (map_bytes f s')
  end.

(** Every byte. *)
Definition all_bytes : list ascii := ascii_of_nat <$> seq 0 256.

(** The test that the ASCII path of [EqualFold] makes on two bytes. *)
Definition fold_bytes (sr tr : ascii) : bool :=
  (byte_val tr =? byte_val sr)%N
  || (let lo := if (byte_val tr <? byte_val sr)%N then tr else sr in
      let hi := if (byte_val tr <? byte_val sr)%N then sr else tr in
      is_upper lo && (byte_val hi =? byte_val lo + 32)%N).

Section Batch.

Context (unicode_ToUpper : string → string).
Context (unicode_EqualFold : string → string → bool).

Definition ToUpper (s : string) : string :=
  if isASCII s then map_bytes upper_byte s else unicode_ToUpper s.

Fixpoint EqualFold (s t : string) : bool :=
  match s, t with
  | String sr s', String tr t' =>
      if (128 <=? N.lor (byte_val sr) (byte_val tr))%N
      then unicode_EqualFold s t
      else if (byte_val tr =? byte_val sr)%N then EqualFold s' t'
      else
        let lo := if (byte_val tr <? byte_val sr)%N then tr else sr in
        let hi := if (byte_val tr <? byte_val sr)%N then sr else tr in
        if is_upper lo && (byte_val hi =? byte_val lo + 32)%N
        then EqualFold s' t'
        else false
  | EmptyString, EmptyString => true
  | _, _ => false
  end.

(** ** [Put] *)

Inductive put_result : Type :=
| PutReturn (cl : Cluster) (b : Batch) (e : error)
| PutPanic (cl : Cluster) (b : Batch).

(** The scan [for i = 0; i < len(batch.batches); i++] up to its [break]:
    the position of the first group on [n], or the number of groups. *)
Fixpoint scan_from (n : node_ptr) (rest : list nodeBatch) (i : nat) : nat :=
  match rest with
  | [] => i
  | nb :: rest' => if node_eqb (node nb) n then i else scan_from n rest' (S i)
  end.

(** Lines 96-114: the code after the routing switch. *)
Definition enqueue (n : node_ptr) (c : string) (a : list iface) (b : Batch) : Batch :=
  let i := scan_from n (batches b) 0 in
  if decide (i = length (batches b))
  then mkBatch (batches b ++ [mkNodeBatch n [new_command c a] None]) (index b ++ [i])
  else mkBatch (alter (push_cmd (new_command c a)) i (batches b)) (index b ++ [i]).

Definition same_slot_message (c key : string) : string :=
  "transaction command[" +:+ c +:+ "] key[" +:+ key +:+ "] not hashed in the same slot".

Definition Put (rt : Router) (cl : Cluster) (b : Batch)
    (c : string) (a : list iface) : put_result :=
  if EqualFold c "PING" then
    match getRandomNode rt with
    | (_, Some e) => PutReturn cl b (Some ("Put PING: " +:+ e))
    | (n, None) => PutReturn cl (enqueue n c a b) None
    end
  else
    let up := ToUpper c in
    if String.eqb up "MGET" || String.eqb up "MSET" || String.eqb up "MSETNX"
    then PutReturn cl b (Some ("Put: " +:+ c +:+ " not supported"))
    else if String.eqb up "MULTI"
    then PutReturn (set_transactionEnable true cl) (enqueue None c a b) None
    else if String.eqb up "EXEC"
    then PutReturn (set_transactionEnable false cl) (enqueue None c a b) None
    else
      match a with
      | [] => PutReturn cl b (Some "Put: no key found in args")
      | key :: _ =>
          match getNodeByKey rt key with
          | (_, Some e) => PutReturn cl b (Some ("Put: " +:+ e))
          | (n, None) =>
              if transactionEnable cl then
                if node_eqb (transactionNode cl) None
                then PutReturn (set_transactionNode n cl) (enqueue n c a b) None
                else if negb (node_eqb (transactionNode cl) n)
                then
                  match assert_bytes key with
                  | Some k => PutReturn cl b (Some (same_slot_message c k))
                  | None => PutPanic cl b
                  end
                else PutReturn cl (enqueue n c a b) None
              else PutReturn cl (enqueue n c a b) None
          end
      end.

(** A sequence of [Put] calls on one batch and its cluster. A call that
    panics leaves the state as it was when the panic was raised (nothing
    has been written by then). The result lists, in order, the calls
    that returned a nil error. *)
Fixpoint run_puts (calls : list call) (cl : Cluster) (b : Batch)
    : Cluster * Batch * list call :=
  match calls with
  | [] => (cl, b, [])
  | k :: calls' =>
      match Put (call_router k) cl b (call_cmd k) (call_args k) with
      | PutReturn cl' b' None =>
          let '(cl'', b'', oks) := run_puts calls' cl' b' in
          (cl'', b'', k :: oks)
      | PutReturn cl' b' (Some _) => run_puts calls' cl' b'
      | PutPanic cl' b' => run_puts calls' cl' b'
      end
  end.

(** ** [doBatch]

    [got] is what [batch.node.getConn()] returns to the executor; the
    executor's trace lists what it does, in program order. *)

(** Lines 163-173, from iteration [i] on: the commands as the loop leaves
    them, the error that stopped it (if any), and the calls it made. *)
Fixpoint receive_loop (c : conn) (i : nat) (todo : list nodeCommand)
    : list nodeCommand * error * list event :=
  match todo with
  | [] => ([], None, [])
  | nc :: rest =>
      match receive c i with
      | (_, Some e) => (nc :: rest, Some e, [EvReceive])
      | (r, None) =>
          let '(rest', e, tr) := receive_loop c (S i) rest in
          (set_reply r None nc :: rest', e, EvReceive :: tr)
      end
  end.

Definition doBatch (got : conn * error) (batch : nodeBatch)
    : nodeBatch * list event :=
  match got with
  | (_, Some e) => (set_err (Some e) batch, [EvGetConn; EvDone])
  | (c, None) =>
      let sends := (λ nc, EvSend (cmd nc) (args nc)) <$> cmds batch in
      match flush c with
      | Some e =>
          (set_err (Some e) batch,
           EvGetConn :: sends ++ [EvFlush; EvShutdown; EvDone])
      | None =>
          match receive_loop c 0 (cmds batch) with
          | (cmds', Some e, reads) =>
              (set_err (Some e) (set_cmds cmds' batch),
               EvGetConn :: sends ++ EvFlush :: reads ++ [EvShutdown; EvDone])
          | (cmds', None, reads) =>
              (set_cmds cmds' batch,
               EvGetConn :: sends ++ EvFlush :: reads ++ [EvReleaseConn; EvDone])
          end
      end
  end.

(** ** [RunBatch] *)

Inductive run_result : Type :=
| RunReturn (replies : slice iface) (e : error)
| RunPanic
| RunBlocked.

(** Lines 130-140: the walk over [bat.index]. An index out of range
    ([bat.batches[i]], [cmds[0]]) panics. *)
Fixpoint reconstruct (bs : list nodeBatch) (idx : list nat) (replies : slice iface)
    : run_result :=
  match idx with
  | [] => RunReturn replies None
  | i :: idx' =>
      match bs !! i with
      | None => RunPanic
      | Some nb =>
          match err nb with
          | Some e => RunReturn None (Some e)
          | None =>
              match cmds nb with
              | [] => RunPanic
              | nc :: rest =>
                  reconstruct (<[i := set_cmds rest nb]> bs) idx'
                              (slice_append replies (reply nc))
              end
          end
      end
  end.

Definition is_done (ev : event) : bool :=
  match ev with EvDone => true | _ => false end.

(** The groups after every executor has run: executor [i] works on
    [bat.batches[i]] alone, with the connection [pool i] that its node
    hands out, so the order in which the executors run does not show. *)
Definition execute (pool : nat → conn * error) (bs : list nodeBatch)
    : list (nodeBatch * list event) :=
  imap (λ i nb, doBatch (pool i) nb) bs.

(** [<-bat.batches[i].done] returns once executor [i] has sent on its
    channel; the dispatcher stays blocked if one never does. *)
Definition RunBatch (pool : nat → conn * error) (bat : Batch) : run_result :=
  let ran := execute pool (batches bat) in
  if forallb (λ r, existsb is_done r.2) ran
  then reconstruct (fst <$> ran) (index bat) None
  else RunBlocked.

(** ** Notions used in the statements *)

(** The cases of the routing switch of [Put], as the code tests them:
    [PING] is tested first, with [EqualFold]; the other verbs are
    compared with [ToUpper cmd]. *)
Definition multi_key_verbs : list string := ["MGET"; "MSET"; "MSETNX"].

Definition transaction_verbs : list string := ["MULTI"; "EXEC"].

Definition is_ping (c : string) : Prop := EqualFold c "PING" = true.

Definition is_verb (v c : string) : Prop :=
  EqualFold c "PING" = false ∧ ToUpper c = v.

Definition is_multi_key (c : string) : Prop :=
  ∃ v, v ∈ multi_key_verbs ∧ is_verb v c.

Definition is_keyed (c : string) : Prop :=
  EqualFold c "PING" = false
  ∧ (ToUpper c ∉ multi_key_verbs) ∧ (ToUpper c ∉ transaction_verbs).

(** The number of entries of [idx] that name group [g]. *)
Definition occurrences (g : nat) (idx : list nat) : nat :=
  length (filter (λ i, i = g) idx).

(** The position, in the queue of group [g], of the command submitted
    at position [i] of the index: the number of earlier entries for [g]. *)
Definition rank (idx : list nat) (i g : nat) : nat :=
  occurrences g (take i idx).

(** The accepted calls that were routed to group [g], in order. *)
Definition routed (g : nat) (idx : list nat) (oks : list call) : list call :=
  snd <$> filter (λ p, p.1 = g) (zip idx oks).

Definition command_of (k : call) : nodeCommand :=
  new_command (call_cmd k) (call_args k).

(** Every group, the first time the index names it, is the newest one:
    the entries before that position name earlier groups only. *)
Definition first_touch_order (idx : list nat) (n : nat) : Prop :=
  ∀ g, g < n → ∃ i, idx !! i = Some g ∧ ∀ j h, j < i → idx !! j = Some h → h < g.

(** A batch as [Put] builds it from the accepted calls [oks]. *)
Record built (b : Batch) (oks : list call) : Prop := mkBuilt {
  built_length : length (index b) = length oks;
  built_range : Forall (λ g, g < length (batches b)) (index b);
  built_nodes : NoDup (node <$> batches b);
  built_touch : first_touch_order (index b) (length (batches b));
  built_groups : ∀ g nb, batches b !! g = Some nb →
      err nb = None ∧ cmds nb = command_of <$> routed g (index b) oks
}.

Definition unset (nc : nodeCommand) : Prop :=
  reply nc = I_nil ∧ cmd_err nc = None.

Definition count_event (p : event → bool) (tr : list event) : nat :=
  length (filter (λ ev, p ev = true) tr).

Definition is_release (ev : event) : bool :=
  match ev with EvReleaseConn => true | _ => false end.

Definition is_shutdown (ev : event) : bool :=
  match ev with EvShutdown => true | _ => false end.

(** The first [n] calls of [receive] on [c] all succeed. *)
Definition reads_ok (c : conn) (n : nat) : bool :=
  forallb (λ i, bool_decide ((receive c i).2 = None)) (seq 0 n).

(** The pipelined exchange of [batch] on [c] goes through: the flush and
    every read succeed. *)
Definition exchange_ok (c : conn) (batch : nodeBatch) : bool :=
  bool_decide (flush c = None) && reads_ok c (length (cmds batch)).

(** The commands [todo] once the replies read from call [i] of
    [receive] on have been stored in them, one per command. *)
Definition assign (c : conn) (i : nat) (todo : list nodeCommand) : list nodeCommand :=
  imap (λ j nc, set_reply (receive c (i + j)).1 None nc) todo.

Definition sends (batch : nodeBatch) : list event :=
  (λ nc, EvSend (cmd nc) (args nc)) <$> cmds batch.

(** How [Put] ends when the same-slot check fails on [key]: with the
    violation error when the key is a byte slice, with the panic of the
    type assertion otherwise. Nothing is written in either case. *)
Definition same_slot_failure (cl : Cluster) (b : Batch) (c : string) (key : iface)
    : put_result :=
  match assert_bytes key with
  | Some k => PutReturn cl b (Some (same_slot_message c k))
  | None => PutPanic cl b
  end.

(** The queues are long enough for the walk: each group that carries no
    error holds at least as many commands as the index names it. *)
Definition enough (bs : list nodeBatch) (idx : list nat) : Prop :=
  ∀ g, g ∈ idx →
    ∃ nb, bs !! g = Some nb ∧ (err nb = None → occurrences g idx ≤ length (cmds nb)).

(** The group named at position [j] of the index carries an error after
    the executors have run. *)
Definition fails_at (pool : nat → conn * error) (bat : Batch) (j : nat) : bool :=
  match index bat !! j with
  | None => false
  | Some g =>
      match execute pool (batches bat) !! g with
      | None => false
      | Some r => bool_decide (err r.1 ≠ None)
      end
  end.

Definition state_after (r : put_result) : Cluster * Batch :=
  match r with
  | PutReturn cl b _ => (cl, b)
  | PutPanic cl b => (cl, b)
  end.

(** The node on which [Put] enqueues a call that it accepts: the random
    pick for [PING], no node (nil) for [MULTI] and [EXEC], the node of
    the key otherwise. *)
Definition target (k : call) : node_ptr :=
  if EqualFold (call_cmd k) "PING" then (getRandomNode (call_router k)).1
  else if bool_decide (ToUpper (call_cmd k) ∈ transaction_verbs) then None
  else match call_args k with
       | key :: _ => (getNodeByKey (call_router k) key).1
       | [] => None
       end.

(** The number of commands queued in a batch, over all its groups. *)
Definition queued_total (b : Batch) : nat :=
  sum_list (length ∘ cmds <$> batches b).

(** The groups as the walk of lines 130-140 leaves them: the head of a
    queue is dropped at each step ([cmds = cmds[1:]]), up to the return
    or the panic that ends the walk. *)
Fixpoint drain (bs : list nodeBatch) (idx : list nat) : list nodeBatch :=
  match idx with
  | [] => bs
  | i :: idx' =>
      match bs !! i with
      | None => bs
      | Some nb =>
          match err nb with
          | Some _ => bs
          | None =>
              match cmds nb with
              | [] => bs
              | _ :: rest => drain (<[i := set_cmds rest nb]> bs) idx'
              end
          end
      end
  end.

(** The batch that a call of [RunBatch] leaves behind. *)
Definition after_run (pool : nat → conn * error) (bat : Batch) : Batch :=
  mkBatch (drain ((execute pool (batches bat)).*1) (index bat)) (index bat).

(** The verb and the arguments of the queued commands, which is what an
    executor writes to its connection. *)
Definition requests (cs : list nodeCommand) : list (string * list iface) :=
  (λ nc, (cmd nc, args nc)) <$> cs.

(** A keyed call whose key the topology resolves to node [p]. *)
Definition resolves_to (p : node_ptr) (k : call) : Prop :=
  is_keyed (call_cmd k)
  ∧ ∃ key rest, call_args k = key :: rest
      ∧ getNodeByKey (call_router k) key = (p, None).

(** Every accepted call is queued on the group of its node. *)
Definition grouped (b : Batch) (oks : list call) : Prop :=
  ∀ i g k, index b !! i = Some g → oks !! i = Some k →
    ∃ nb, batches b !! g = Some nb ∧ node nb = target k.

(** ** Sample data

    Routers, connections and call sequences on which the functions are
    evaluated: two nodes [node_A] and [node_B], ASCII verbs only (the
    Unicode paths are never reached on them, so any instance will do). *)

Definition plain_ToUpper (s : string) : string := s.

Definition plain_EqualFold (s t : string) : bool := false.

Definition node_A : node_ptr := Some 1.

Definition node_B : node_ptr := Some 2.

(** A topology that resolves every key, and every random pick, to [n]. *)
Definition route_to (n : node_ptr) : Router :=
  mkRouter (n, None) (λ _, (n, None)).

Definition put_on (n : node_ptr) (c key : string) : call :=
  mkCall (route_to n) c [I_bytes key].

(** Five commands in the pattern A, B, A, A, B. *)
Definition calls_ABAAB : list call :=
  [put_on node_A "SET" "k1"; put_on node_B "GET" "k2"; put_on node_A "get" "k3";
   put_on node_A "INCR" "k4"; put_on node_B "DEL" "k5"].

(** Three commands, two on A and one on B. *)
Definition calls_AAB : list call :=
  [put_on node_A "SET" "k1"; put_on node_A "GET" "k1"; put_on node_B "GET" "k2"].

(** Every group gets a connection; flush and reads succeed, and the
    [k]-th reply on the connection of group [g] is the number [10 * g + k]. *)
Definition healthy_pool (g : nat) : conn * error :=
  (mkConn None (λ k, (I_int (Z.of_nat (10 * g + k)), None)), None).

(** As [healthy_pool], but the flush of group 0 fails. *)
Definition pool_flush_fails_on_0 (g : nat) : conn * error :=
  match g with
  | 0 => (mkConn (Some "broken pipe") (λ _, (I_nil, None)), None)
  | _ => healthy_pool g
  end.

(** A connection whose second read fails. *)
Definition conn_second_read_fails : conn :=
  mkConn None (λ k, match k with
                    | 0 => (I_string "OK", None)
                    | 1 => (I_nil, Some "EOF")
                    | _ => (I_int 7, None)
                    end).

Definition idle_cluster : Cluster := mkCluster false None.

Definition queued (c key : string) : nodeCommand := new_command c [I_bytes key].

(** The batch that the calls [calls_ABAAB] build. *)
Definition batch_ABAAB : Batch :=
  mkBatch
    [mkNodeBatch node_A [queued "SET" "k1"; queued "get" "k3"; queued "INCR" "k4"] None;
     mkNodeBatch node_B [queued "GET" "k2"; queued "DEL" "k5"] None]
    [0; 1; 0; 0; 1].

(** The batch that the calls [calls_AAB] build. *)
Definition batch_AAB : Batch :=
  mkBatch
    [mkNodeBatch node_A [queued "SET" "k1"; queued "GET" "k1"] None;
     mkNodeBatch node_B [queued "GET" "k2"] None]
    [0; 0; 1].

(** Six calls of which two are refused: MGET, and a GET without a key. *)
Definition calls_mixed : list call :=
  [put_on node_A "SET" "k1"; put_on node_A "MGET" "k1";
   mkCall (route_to node_B) "GET" []; mkCall (route_to node_B) "multi" [];
   put_on node_B "GET" "k2"; mkCall (route_to node_A) "Ping" []].

Definition accepted_mixed : list call :=
  [put_on node_A "SET" "k1"; mkCall (route_to node_B) "multi" [];
   put_on node_B "GET" "k2"; mkCall (route_to node_A) "Ping" []].

Definition batch_mixed : Batch :=
  mkBatch
    [mkNodeBatch node_A [queued "SET" "k1"; new_command "Ping" []] None;
     mkNodeBatch None [new_command "multi" []] None;
     mkNodeBatch node_B [queued "GET" "k2"] None]
    [0; 1; 2; 0].

(** A transaction left pinned to [node_A]. *)
Definition pinned_cluster : Cluster := mkCluster true node_A.

Definition queue_of_three : nodeBatch :=
  mkNodeBatch node_A [queued "SET" "a"; queued "GET" "a"; queued "GET" "b"] None.

(** ** The ASCII paths of the string functions *)

Lemma all_bytes_complete (a : ascii) : a ∈ all_bytes.
Proof.
  unfold all_bytes. apply list_elem_of_fmap. exists (nat_of_ascii a). split.
  - by rewrite ascii_nat_embedding.
  - apply list_elem_of_In, in_seq. pose proof (nat_ascii_bounded a). lia.
Qed.

Lemma fold_bytes_upper sr tr :
  (byte_val sr <? 128)%N = true → (byte_val tr <? 128)%N = true →
  (128 <=? N.lor (byte_val sr) (byte_val tr))%N = false
  ∧ fold_bytes sr tr = Ascii.eqb (upper_byte sr) (upper_byte tr).
Proof.
  assert (forallb (λ a, forallb (λ b,
            implb ((byte_val a <? 128)%N && (byte_val b <? 128)%N)
              (negb (128 <=? N.lor (byte_val a) (byte_val b))%N
               && Bool.eqb (fold_bytes a b) (Ascii.eqb (upper_byte a) (upper_byte b))))
            all_bytes) all_bytes = true) as Hall by (vm_compute; reflexivity).
  rewrite forallb_forall in Hall.
  specialize (Hall sr (proj1 (list_elem_of_In _ _) (all_bytes_complete sr))).
  rewrite forallb_forall in Hall.
  specialize (Hall tr (proj1 (list_elem_of_In _ _) (all_bytes_complete tr))).
  intros Hs Ht. rewrite Hs, Ht in Hall. simpl in Hall.
  apply andb_true_iff in Hall as [H1 H2].
  apply negb_true_iff in H1. apply Bool.eqb_prop in H2. done.
Qed.

Lemma EqualFold_ascii s t :
  isASCII s = true → isASCII t = true →
  EqualFold s t = String.eqb (map_bytes upper_byte s) (map_bytes upper_byte t).
Proof.
  revert t. induction s as [| sr s IH]; intros [| tr t]; simpl; try done.
  rewrite !andb_true_iff. intros [Hsr Hs] [Htr Ht].
  destruct (fold_bytes_upper sr tr Hsr Htr) as [-> Hfold].
  unfold fold_bytes in Hfold.
  destruct (byte_val tr =? byte_val sr)%N eqn:Heq.
  - simpl in Hfold. rewrite <- Hfold. by apply IH.
  - simpl in Hfold. rewrite <- Hfold.
    destruct (is_upper _ && _); [by apply IH | done].
Qed.

(** On an ASCII verb the switch looks at the upper-cased bytes only:
    [PING] is recognised in any letter case, and a verb that is not
    [PING] is the verb that [ToUpper] makes of it. *)
Lemma ascii_is_ping c :
  isASCII c = true → (is_ping c ↔ map_bytes upper_byte c = "PING").
Proof.
  intros Hc. unfold is_ping. rewrite EqualFold_ascii by done.
  apply String.eqb_eq.
Qed.

Lemma ascii_is_verb c :
  isASCII c = true → map_bytes upper_byte c ≠ "PING" →
  is_verb (map_bytes upper_byte c) c.
Proof.
  intros Hc Hne. split.
  - rewrite EqualFold_ascii by done. by apply String.eqb_neq.
  - unfold ToUpper. by rewrite Hc.
Qed.

(** ** The routing switch *)

Lemma Put_ping rt cl b c a :
  is_ping c →
  Put rt cl b c a =
    match getRandomNode rt with
    | (_, Some e) => PutReturn cl b (Some ("Put PING: " +:+ e))
    | (n, None) => PutReturn cl (enqueue n c a b) None
    end.
Proof. unfold is_ping, Put. by intros ->. Qed.

Lemma Put_multi_key rt cl b c a :
  is_multi_key c →
  Put rt cl b c a = PutReturn cl b (Some ("Put: " +:+ c +:+ " not supported")).
Proof.
  intros (v & Hv & Hp & Hu). unfold Put. rewrite Hp, Hu. cbn zeta.
  unfold multi_key_verbs in Hv.
  rewrite !elem_of_cons, elem_of_nil in Hv.
  by destruct Hv as [-> | [-> | [-> | []]]].
Qed.

Lemma verb_eqb_false (u v : string) : u ≠ v → String.eqb u v = false.
Proof. intros H. by apply String.eqb_neq. Qed.

Lemma Put_MULTI rt cl b c a :
  is_verb "MULTI" c →
  Put rt cl b c a = PutReturn (set_transactionEnable true cl) (enqueue None c a b) None.
Proof. intros [Hp Hu]. unfold Put. by rewrite Hp, Hu. Qed.

Lemma Put_EXEC rt cl b c a :
  is_verb "EXEC" c →
  Put rt cl b c a = PutReturn (set_transactionEnable false cl) (enqueue None c a b) None.
Proof. intros [Hp Hu]. unfold Put. by rewrite Hp, Hu. Qed.

Lemma Put_keyed rt cl b c a :
  is_keyed c →
  Put rt cl b c a =
    match a with
    | [] => PutReturn cl b (Some "Put: no key found in args")
    | key :: _ =>
        match getNodeByKey rt key with
        | (_, Some e) => PutReturn cl b (Some ("Put: " +:+ e))
        | (n, None) =>
            if transactionEnable cl then
              if node_eqb (transactionNode cl) None
              then PutReturn (set_transactionNode n cl) (enqueue n c a b) None
              else if negb (node_eqb (transactionNode cl) n)
              then same_slot_failure cl b c key
              else PutReturn cl (enqueue n c a b) None
            else PutReturn cl (enqueue n c a b) None
        end
    end.
Proof.
  intros (Hp & Hm & Ht). unfold Put. rewrite Hp. cbn zeta.
  unfold multi_key_verbs, transaction_verbs in *.
  rewrite !verb_eqb_false; [done | intros E ..];
    first [ by apply Hm; rewrite E; repeat constructor
          | by apply Ht; rewrite E; repeat constructor ].
Qed.

(** Every verb falls in exactly one case of the switch. *)
Lemma verb_cases c :
  is_ping c ∨ is_multi_key c ∨ is_verb "MULTI" c ∨ is_verb "EXEC" c ∨ is_keyed c.
Proof.
  unfold is_ping, is_multi_key, is_verb, is_keyed.
  destruct (EqualFold c "PING") eqn:Hp; [by left | right].
  destruct (decide (ToUpper c ∈ multi_key_verbs)) as [Hm | Hm]; [left; eauto |].
  right.
  destruct (decide (ToUpper c = "MULTI")) as [H1 | H1]; [by left | right].
  destruct (decide (ToUpper c = "EXEC")) as [H2 | H2]; [by left | right].
  repeat split; try done.
  unfold transaction_verbs. rewrite !not_elem_of_cons. repeat split; try done.
  apply not_elem_of_nil.
Qed.

(** ** The enqueue step *)

Lemma scan_from_spec n rest j :
  (scan_from n rest j = j + length rest ∧ n ∉ node <$> rest)
  ∨ (∃ nb, j ≤ scan_from n rest j ∧ scan_from n rest j < j + length rest
       ∧ rest !! (scan_from n rest j - j) = Some nb ∧ node nb = n).
Proof.
  revert j. induction rest as [| nb rest IH]; intros j; simpl.
  - left. split; [lia | apply not_elem_of_nil].
  - unfold node_eqb. case_bool_decide as Hn.
    + right. exists nb. replace (j - j) with 0 by lia. repeat split; [lia.. | done].
    + destruct (IH (S j)) as [[Hi Hnot] | (nb' & Hle & Hlt & Hlk & Hnode)].
      * left. split; [lia |]. rewrite not_elem_of_cons. split; [congruence | done].
      * right. exists nb'. repeat split; [lia.. | | done].
        replace (scan_from n rest (S j) - j) with (S (scan_from n rest (S j) - S j)) by lia.
        done.
Qed.

Lemma enqueue_cases n c a b :
  ((n ∉ node <$> batches b)
   ∧ enqueue n c a b =
       mkBatch (batches b ++ [mkNodeBatch n [new_command c a] None])
               (index b ++ [length (batches b)]))
  ∨ (∃ g nb, batches b !! g = Some nb ∧ node nb = n
       ∧ enqueue n c a b =
           mkBatch (alter (push_cmd (new_command c a)) g (batches b))
                   (index b ++ [g])).
Proof.
  unfold enqueue.
  destruct (scan_from_spec n (batches b) 0) as [[Hi Hnot] | (nb & _ & Hlt & Hlk & Hnode)].
  - left. split; [done |]. rewrite Hi. simpl. by rewrite decide_True.
  - right. exists (scan_from n (batches b) 0), nb.
    rewrite Nat.sub_0_r in Hlk. repeat split; [done.. |].
    rewrite decide_False by lia. done.
Qed.

Lemma enqueue_index_length n c a b :
  length (index (enqueue n c a b)) = S (length (index b)).
Proof.
  destruct (enqueue_cases n c a b) as [[_ ->] | (g & nb & _ & _ & ->)];
    simpl; rewrite length_app; simpl; lia.
Qed.

Lemma routed_snoc g idx oks i k :
  length idx = length oks →
  routed g (idx ++ [i]) (oks ++ [k]) =
    routed g idx oks ++ (if decide (i = g) then [k] else []).
Proof.
  intros Hlen. unfold routed.
  rewrite zip_with_app by done. rewrite filter_app, fmap_app. f_equal.
  simpl. rewrite filter_cons. simpl. by destruct (decide (i = g)).
Qed.

Lemma routed_none g idx oks :
  Forall (λ i, i ≠ g) idx → routed g idx oks = [].
Proof.
  unfold routed. intros H. revert oks.
  induction H as [| i idx Hi _ IH]; intros [| k oks]; simpl; try done.
  rewrite filter_cons. simpl. rewrite decide_False by done. apply IH.
Qed.

Lemma routed_length g idx oks :
  length idx = length oks → length (routed g idx oks) = occurrences g idx.
Proof.
  unfold routed, occurrences. rewrite length_fmap. revert oks.
  induction idx as [| i idx IH]; intros [| k oks] Hlen; simpl in *; try done.
  rewrite !filter_cons. simpl. destruct (decide (i = g)); simpl; rewrite IH; auto.
Qed.

(** The command of the [i]-th accepted call sits in the queue of the
    group that the index names at [i], at the rank of [i]. *)
Lemma routed_lookup g idx oks i k :
  idx !! i = Some g → oks !! i = Some k →
  routed g idx oks !! rank idx i g = Some k.
Proof.
  unfold routed, rank, occurrences. revert oks i.
  induction idx as [| h idx IH]; intros [| k' oks] [| i] Hi Hk; simpl in *; try done.
  - simplify_eq. rewrite filter_cons. simpl. by rewrite decide_True.
  - rewrite !filter_cons. simpl. destruct (decide (h = g)); simpl; by apply IH.
Qed.

Lemma built_empty : built NewBatch [].
Proof.
  split; simpl; try done.
  - constructor.
  - intros g Hg. lia.
Qed.

Lemma built_enqueue b oks n k :
  built b oks →
  built (enqueue n (call_cmd k) (call_args k) b) (oks ++ [k]).
Proof.
  intros [Hlen Hrange Hnodes Htouch Hgroups].
  destruct (enqueue_cases n (call_cmd k) (call_args k) b)
    as [[Hnot ->] | (g & nb & Hg & Hnode & ->)]; split; simpl.
  - rewrite !length_app. simpl. lia.
  - rewrite length_app. simpl. apply Forall_app. split.
    + eapply Forall_impl; [exact Hrange |]. simpl. lia.
    + repeat constructor. lia.
  - rewrite fmap_app. apply NoDup_app. repeat split; [done | | apply NoDup_singleton].
    simpl. intros x Hx Hx'. apply list_elem_of_singleton in Hx'. by subst.
  - rewrite length_app. simpl. intros g Hg.
    destruct (decide (g < length (batches b))) as [Hlt | Hge].
    + destruct (Htouch g Hlt) as (i & Hi & Hbefore). exists i. split.
      * by apply lookup_app_l_Some.
      * intros j h Hj Hjh. apply (Hbefore j h Hj).
        rewrite lookup_app_l in Hjh; [done |]. apply lookup_lt_Some in Hi. lia.
    + assert (g = length (batches b)) as -> by lia.
      exists (length (index b)). split.
      * by apply list_lookup_middle.
      * intros j h Hj Hjh. rewrite lookup_app_l in Hjh by done.
        by eapply (Forall_lookup_1 _ _ _ _ Hrange).
  - intros g nb Hg. rewrite routed_snoc by done.
    destruct (decide (g < length (batches b))) as [Hlt | Hge].
    + rewrite lookup_app_l in Hg by done.
      rewrite decide_False by lia. rewrite app_nil_r. by apply Hgroups.
    + apply lookup_lt_Some in Hg as Hlt. rewrite length_app in Hlt. simpl in Hlt.
      assert (g = length (batches b)) as -> by lia.
      rewrite list_lookup_middle in Hg by done. simplify_eq. simpl.
      rewrite decide_True by done. split; [done |].
      rewrite routed_none; [done |].
      eapply Forall_impl; [exact Hrange |]. simpl. lia.
  - rewrite !length_app. simpl. lia.
  - rewrite length_alter. apply Forall_app. split; [done |].
    repeat constructor. by eapply lookup_lt_Some.
  - rewrite (list_fmap_alter node _ id).
    + by rewrite list_alter_id.
    + by apply Forall_true.
  - rewrite length_alter. intros g' Hg'.
    destruct (Htouch g' Hg') as (i & Hi & Hbefore). exists i. split.
    + by apply lookup_app_l_Some.
    + intros j h Hj Hjh. apply (Hbefore j h Hj).
      rewrite lookup_app_l in Hjh; [done |]. apply lookup_lt_Some in Hi. lia.
  - intros g' nb' Hg'. rewrite routed_snoc by done.
    rewrite list_lookup_alter in Hg'. destruct (decide (g = g')) as [<- | Hne].
    + rewrite Hg in Hg'. simpl in Hg'. simplify_eq. simpl.
      destruct (Hgroups g nb Hg) as [He Hc]. split; [done |].
      rewrite fmap_app, Hc. done.
    + rewrite app_nil_r. by apply Hgroups.
Qed.

(** What a call of [Put] does to a built batch: it is accepted and the
    batch is built from one more call, or the batch is left as it was. *)
Lemma Put_built rt cl b c a oks :
  built b oks →
  match Put rt cl b c a with
  | PutReturn _ b' None => built b' (oks ++ [mkCall rt c a])
  | PutReturn cl' b' (Some _) => cl' = cl ∧ b' = b
  | PutPanic cl' b' => cl' = cl ∧ b' = b
  end.
Proof.
  intros Hb.
  pose proof (built_enqueue b oks) as Henq.
  assert (∀ n, built (enqueue n c a b) (oks ++ [mkCall rt c a])) as Henq'
    by (intros n; apply (Henq n (mkCall rt c a) Hb)).
  destruct (verb_cases c) as [H | [H | [H | [H | H]]]].
  - rewrite Put_ping by done. destruct (getRandomNode rt) as [n [e |]]; auto.
  - rewrite Put_multi_key by done. auto.
  - rewrite Put_MULTI by done. auto.
  - rewrite Put_EXEC by done. auto.
  - rewrite Put_keyed by done. destruct a as [| key rest]; [auto |].
    destruct (getNodeByKey rt key) as [n [e |]]; [auto |].
    unfold same_slot_failure.
    destruct (transactionEnable cl); [| auto].
    destruct (node_eqb (transactionNode cl) None); [auto |].
    destruct (negb (node_eqb (transactionNode cl) n)); [| auto].
    destruct (assert_bytes key); auto.
Qed.

Lemma run_puts_built calls cl b oks0 cl' b' oks :
  built b oks0 →
  run_puts calls cl b = (cl', b', oks) →
  built b' (oks0 ++ oks).
Proof.
  revert cl b oks0 cl' b' oks.
  induction calls as [| k calls IH]; intros cl b oks0 cl' b' oks Hb Hrun; simpl in Hrun.
  - simplify_eq. by rewrite app_nil_r.
  - pose proof (Put_built (call_router k) cl b (call_cmd k) (call_args k) oks0 Hb) as HP.
    destruct (Put _ _ _ _ _) as [cl1 b1 [e |] | cl1 b1].
    + destruct HP as [-> ->]. eauto.
    + destruct (run_puts calls cl1 b1) as [[cl2 b2] oks2] eqn:Hrest. simplify_eq.
      specialize (IH _ _ _ _ _ _ HP Hrest).
      destruct k. simpl in IH. by rewrite <- app_assoc in IH.
    + destruct HP as [-> ->]. eauto.
Qed.

(** ** The executor *)

Lemma assign_cons c i nc rest :
  assign c i (nc :: rest) = set_reply (receive c i).1 None nc :: assign c (S i) rest.
Proof.
  unfold assign. simpl. rewrite Nat.add_0_r. f_equal.
  apply imap_ext. intros j x _. simpl. by rewrite Nat.add_succ_r.
Qed.

Lemma assign_length c i todo : length (assign c i todo) = length todo.
Proof. unfold assign. apply length_imap. Qed.

Lemma assign_lookup c i todo j :
  assign c i todo !! j = set_reply (receive c (i + j)).1 None <$> todo !! j.
Proof. unfold assign. by rewrite list_lookup_imap. Qed.

Lemma receive_loop_all_ok c todo i :
  (∀ j, j < length todo → (receive c (i + j)).2 = None) →
  receive_loop c i todo = (assign c i todo, None, replicate (length todo) EvReceive).
Proof.
  revert i. induction todo as [| nc rest IH]; intros i Hok; [done |].
  rewrite assign_cons. cbn [receive_loop].
  pose proof (Hok 0 ltac:(simpl; lia)) as H0. rewrite Nat.add_0_r in H0.
  destruct (receive c i) as [r e]. simpl in H0. subst e.
  rewrite IH; [done |].
  intros j Hj. rewrite Nat.add_succ_comm. apply Hok. simpl. lia.
Qed.

Lemma receive_loop_first_failure c todo i k e :
  k < length todo →
  (∀ j, j < k → (receive c (i + j)).2 = None) →
  (receive c (i + k)).2 = Some e →
  receive_loop c i todo =
    (assign c i (take k todo) ++ drop k todo, Some e, replicate (S k) EvReceive).
Proof.
  revert i k. induction todo as [| nc rest IH]; intros i k Hk Hok Hfail; simpl in Hk; [lia |].
  destruct k as [| k].
  - rewrite Nat.add_0_r in Hfail. simpl.
    destruct (receive c i) as [r e']. simpl in Hfail. by subst e'.
  - pose proof (Hok 0 ltac:(lia)) as H0. rewrite Nat.add_0_r in H0.
    change (take (S k) (nc :: rest)) with (nc :: take k rest).
    change (drop (S k) (nc :: rest)) with (drop k rest).
    rewrite assign_cons. cbn [receive_loop].
    destruct (receive c i) as [r e']. simpl in H0. subst e'.
    rewrite (IH (S i) k); [done | lia | |].
    + intros j Hj. rewrite Nat.add_succ_comm. apply Hok. lia.
    + by rewrite Nat.add_succ_comm.
Qed.

Lemma reads_ok_true c n :
  reads_ok c n = true ↔ ∀ j, j < n → (receive c j).2 = None.
Proof.
  unfold reads_ok. rewrite forallb_forall. split.
  - intros H j Hj. specialize (H j). rewrite bool_decide_eq_true in H.
    apply H. apply in_seq. lia.
  - intros H j Hj. apply in_seq in Hj. apply bool_decide_eq_true. apply H. lia.
Qed.

(** When some read fails there is a first one that does. *)
Lemma reads_ok_false c n :
  reads_ok c n = false →
  ∃ k e, k < n ∧ (∀ j, j < k → (receive c j).2 = None) ∧ (receive c k).2 = Some e.
Proof.
  induction n as [| n IH]; [done |].
  destruct (reads_ok c n) eqn:Hn.
  - intros HS. destruct ((receive c n).2) as [e |] eqn:Hlast.
    + exists n, e. split; [lia |]. split; [| done]. by apply reads_ok_true.
    + assert (reads_ok c (S n) = true) as Hall; [| congruence].
      apply reads_ok_true. intros j Hj.
      destruct (decide (j = n)) as [-> | Hne]; [done |].
      rewrite reads_ok_true in Hn. apply Hn. lia.
  - intros _. destruct (IH eq_refl) as (k & e & Hk & Hbefore & Hfail).
    exists k, e. split; [lia | done].
Qed.

(** The four ways through [doBatch]. *)
Lemma doBatch_no_connection c e batch :
  doBatch (c, Some e) batch = (set_err (Some e) batch, [EvGetConn; EvDone]).
Proof. done. Qed.

Lemma doBatch_flush_failed c e batch :
  flush c = Some e →
  doBatch (c, None) batch =
    (set_err (Some e) batch,
     EvGetConn :: sends batch ++ [EvFlush; EvShutdown; EvDone]).
Proof. intros H. unfold doBatch. by rewrite H. Qed.

Lemma doBatch_read_failed c batch k e :
  flush c = None →
  k < length (cmds batch) →
  (∀ j, j < k → (receive c j).2 = None) →
  (receive c k).2 = Some e →
  doBatch (c, None) batch =
    (set_err (Some e)
       (set_cmds (assign c 0 (take k (cmds batch)) ++ drop k (cmds batch)) batch),
     EvGetConn :: sends batch ++ EvFlush :: replicate (S k) EvReceive
       ++ [EvShutdown; EvDone]).
Proof.
  intros Hf Hk Hok Hfail. unfold doBatch. rewrite Hf.
  by rewrite (receive_loop_first_failure c (cmds batch) 0 k e).
Qed.

Lemma doBatch_exchanged c batch :
  exchange_ok c batch = true →
  doBatch (c, None) batch =
    (set_cmds (assign c 0 (cmds batch)) batch,
     EvGetConn :: sends batch ++ EvFlush :: replicate (length (cmds batch)) EvReceive
       ++ [EvReleaseConn; EvDone]).
Proof.
  unfold exchange_ok. rewrite andb_true_iff, bool_decide_eq_true, reads_ok_true.
  intros [Hf Hr]. unfold doBatch. rewrite Hf.
  by rewrite (receive_loop_all_ok c (cmds batch) 0).
Qed.

Lemma exchange_failed c batch :
  exchange_ok c batch = false →
  (∃ e, flush c = Some e)
  ∨ (flush c = None
     ∧ ∃ k e, k < length (cmds batch)
         ∧ (∀ j, j < k → (receive c j).2 = None) ∧ (receive c k).2 = Some e).
Proof.
  unfold exchange_ok. destruct (flush c) as [e |] eqn:Hf; [eauto |].
  rewrite bool_decide_eq_true_2 by done. simpl. intros H. right. split; [done |].
  by apply reads_ok_false.
Qed.

Lemma count_event_app p tr1 tr2 :
  count_event p (tr1 ++ tr2) = count_event p tr1 + count_event p tr2.
Proof. unfold count_event. by rewrite filter_app, length_app. Qed.

Lemma count_event_cons p ev tr :
  count_event p (ev :: tr) = (if p ev then 1 else 0) + count_event p tr.
Proof.
  unfold count_event. rewrite filter_cons.
  case_decide as H; destruct (p ev); simpl; congruence.
Qed.

Lemma count_event_sends p batch :
  (∀ c a, p (EvSend c a) = false) → count_event p (sends batch) = 0.
Proof.
  intros Hp. unfold sends. induction (cmds batch) as [| nc l IH]; [done |].
  rewrite fmap_cons, count_event_cons, Hp. done.
Qed.

Lemma count_event_receives p n :
  p EvReceive = false → count_event p (replicate n EvReceive) = 0.
Proof.
  intros Hp. induction n as [| n IH]; [done |].
  simpl. rewrite count_event_cons, Hp. done.
Qed.

(** The group after [doBatch] keeps its node and the length of its queue;
    when it carries no error every command holds the reply read for it. *)
Lemma doBatch_group got batch :
  node (doBatch got batch).1 = node batch
  ∧ length (cmds (doBatch got batch).1) = length (cmds batch)
  ∧ (err (doBatch got batch).1 = None →
       cmds (doBatch got batch).1 = assign got.1 0 (cmds batch)).
Proof.
  destruct got as [c [e |]]; [done |].
  destruct (exchange_ok c batch) eqn:Hx.
  - rewrite doBatch_exchanged by done. simpl. by rewrite assign_length.
  - apply exchange_failed in Hx as [[e Hf] | (Hf & k & e & Hk & Hok & Hfail)].
    + rewrite (doBatch_flush_failed c e batch Hf). done.
    + rewrite (doBatch_read_failed c batch k e Hf Hk Hok Hfail). simpl.
      repeat split; [| done].
      rewrite length_app, assign_length, length_take, length_drop. lia.
Qed.

Lemma doBatch_signals got batch :
  existsb is_done (doBatch got batch).2 = true.
Proof.
  apply existsb_exists. exists EvDone. split; [| done].
  destruct got as [c [e |]]; [simpl; auto |].
  destruct (exchange_ok c batch) eqn:Hx.
  - rewrite doBatch_exchanged by done. simpl. right.
    rewrite !in_app_iff. right. simpl. right. rewrite in_app_iff. right. simpl. auto.
  - apply exchange_failed in Hx as [[e Hf] | (Hf & k & e & Hk & Hok & Hfail)].
    + rewrite (doBatch_flush_failed c e batch Hf). simpl. right.
      rewrite in_app_iff. right. simpl. auto.
    + rewrite (doBatch_read_failed c batch k e Hf Hk Hok Hfail).
      cbn [snd]. right. rewrite in_app_iff. right. right.
      rewrite in_app_iff. right. simpl. auto.
Qed.

(** ** The walk over the index *)

Lemma occurrences_cons g h idx :
  occurrences g (h :: idx) = (if decide (h = g) then 1 else 0) + occurrences g idx.
Proof. unfold occurrences. rewrite filter_cons. by destruct (decide (h = g)). Qed.

Lemma rank_0 idx g : rank idx 0 g = 0.
Proof. done. Qed.

Lemma rank_S h idx i g :
  rank (h :: idx) (S i) g = (if decide (h = g) then 1 else 0) + rank idx i g.
Proof. unfold rank. simpl. apply occurrences_cons. Qed.

Lemma enough_head g idx bs :
  enough bs (g :: idx) →
  ∃ nb, bs !! g = Some nb
    ∧ (err nb = None → ∃ nc rest, cmds nb = nc :: rest
         ∧ enough (<[g := set_cmds rest nb]> bs) idx).
Proof.
  intros Hen. destruct (Hen g) as (nb & Hnb & Hcount); [by left |].
  exists nb. split; [done |]. intros Herr. specialize (Hcount Herr).
  rewrite occurrences_cons, decide_True in Hcount by done.
  destruct (cmds nb) as [| nc rest] eqn:Hcmds; simpl in Hcount; [lia |].
  exists nc, rest. split; [done |]. intros h Hh.
  destruct (decide (h = g)) as [-> | Hne].
  - exists (set_cmds rest nb). split.
    + apply list_lookup_insert_eq. by eapply lookup_lt_Some.
    + simpl. intros _. lia.
  - destruct (Hen h) as (nb' & Hnb' & Hcount'); [by right |]. exists nb'. split.
    + by rewrite list_lookup_insert_ne.
    + intros He. specialize (Hcount' He).
      rewrite occurrences_cons, decide_False in Hcount' by done. done.
Qed.

Lemma reconstruct_replies idx bs acc :
  enough bs idx →
  (∀ g nb, bs !! g = Some nb → err nb = None) →
  ∃ rs, reconstruct bs idx acc = RunReturn (foldl slice_append acc rs) None
    ∧ length rs = length idx
    ∧ ∀ i g, idx !! i = Some g →
        ∃ nb nc, bs !! g = Some nb ∧ cmds nb !! rank idx i g = Some nc
          ∧ rs !! i = Some (reply nc).
Proof.
  revert bs acc. induction idx as [| g0 idx IH]; intros bs acc Hen Herr.
  - exists []. by repeat split.
  - destruct (enough_head _ _ _ Hen) as (nb0 & Hnb0 & Hstep).
    pose proof (Herr _ _ Hnb0) as He0.
    destruct (Hstep He0) as (nc0 & rest & Hcmds & Hen').
    destruct (IH (<[g0 := set_cmds rest nb0]> bs) (slice_append acc (reply nc0)) Hen')
      as (rs & Hrun & Hlen & Hrs).
    { intros g nb. destruct (decide (g = g0)) as [-> | Hne].
      - rewrite list_lookup_insert_eq by (by eapply lookup_lt_Some).
        intros [= <-]. done.
      - rewrite list_lookup_insert_ne by done. apply Herr. }
    exists (reply nc0 :: rs). simpl. rewrite Hnb0, He0, Hcmds. split; [done |].
    split; [by rewrite Hlen |].
    intros [| i] g Hi; simpl in Hi.
    + simplify_eq. exists nb0, nc0. rewrite rank_0, Hcmds. done.
    + destruct (Hrs i g Hi) as (nb & nc & Hnb & Hnc & Hri).
      rewrite rank_S. destruct (decide (g0 = g)) as [-> | Hne].
      * rewrite list_lookup_insert_eq in Hnb by (by eapply lookup_lt_Some).
        simplify_eq. exists nb0, nc. rewrite Hcmds. done.
      * rewrite list_lookup_insert_ne in Hnb by done. exists nb, nc. done.
Qed.

Lemma reconstruct_first_error idx bs acc i g nb e :
  enough bs idx →
  idx !! i = Some g → bs !! g = Some nb → err nb = Some e →
  (∀ j h nb', j < i → idx !! j = Some h → bs !! h = Some nb' → err nb' = None) →
  reconstruct bs idx acc = RunReturn None (Some e).
Proof.
  revert bs acc i. induction idx as [| g0 idx IH]; intros bs acc i Hen Hi Hnb He Hbefore;
    [done |].
  destruct i as [| i]; simpl in Hi.
  - simplify_eq. simpl. by rewrite Hnb, He.
  - destruct (enough_head _ _ _ Hen) as (nb0 & Hnb0 & Hstep).
    assert (err nb0 = None) as He0 by (eapply (Hbefore 0); [lia | done..]).
    destruct (Hstep He0) as (nc0 & rest & Hcmds & Hen').
    simpl. rewrite Hnb0, He0, Hcmds.
    assert (g ≠ g0) as Hne by (intros ->; congruence).
    apply (IH _ _ i); [done.. | by rewrite list_lookup_insert_ne | done |].
    intros j h nb' Hj Hjh Hh. destruct (decide (h = g0)) as [-> | Hne'].
    + rewrite list_lookup_insert_eq in Hh by (by eapply lookup_lt_Some).
      by simplify_eq.
    + rewrite list_lookup_insert_ne in Hh by done.
      apply (Hbefore (S j) h); [lia | done..].
Qed.

Lemma slice_extend_nil_len (rs : list iface) :
  slice_len (foldl slice_append None rs) = length rs.
Proof.
  assert (∀ acc : slice iface,
    slice_len (foldl slice_append acc rs) = slice_len acc + length rs) as H.
  { induction rs as [| r rs IH]; intros acc; simpl; [lia |].
    rewrite IH. destruct acc; simpl; rewrite ?length_app; simpl; lia. }
  by rewrite H.
Qed.

Lemma slice_extend_nil_at (rs : list iface) i :
  slice_at (foldl slice_append None rs) i = rs !! i.
Proof.
  assert (∀ (rs l : list iface),
    foldl slice_append (Some l) rs = Some (l ++ rs)) as H.
  { clear. induction rs as [| r rs IH]; intros l; simpl; [by rewrite app_nil_r |].
    by rewrite IH, <- app_assoc. }
  destruct rs as [| r rs]; simpl; [by destruct i |]. by rewrite H.
Qed.

(** ** The dispatcher on a built batch *)

Lemma execute_lookup pool bs g :
  execute pool bs !! g = doBatch (pool g) <$> bs !! g.
Proof. unfold execute. by rewrite list_lookup_imap. Qed.

Lemma execute_joined pool bs :
  forallb (λ r, existsb is_done r.2) (execute pool bs) = true.
Proof.
  apply forallb_forall. intros r Hr. apply list_elem_of_In in Hr.
  apply list_elem_of_lookup in Hr as [g Hg].
  rewrite execute_lookup in Hg. destruct (bs !! g); simplify_eq/=.
  apply doBatch_signals.
Qed.

Lemma RunBatch_reconstruct pool bat :
  RunBatch pool bat = reconstruct ((execute pool (batches bat)).*1) (index bat) None.
Proof. unfold RunBatch. by rewrite execute_joined. Qed.

Lemma built_enough pool bat oks :
  built bat oks → enough ((execute pool (batches bat)).*1) (index bat).
Proof.
  intros [Hlen Hrange _ _ Hgroups] g Hg.
  rewrite Forall_forall in Hrange. apply Hrange in Hg.
  apply lookup_lt_is_Some_2 in Hg as [nb Hnb].
  exists (doBatch (pool g) nb).1. split.
  - by rewrite list_lookup_fmap, execute_lookup, Hnb.
  - intros _. destruct (doBatch_group (pool g) nb) as (_ & -> & _).
    destruct (Hgroups g nb Hnb) as [_ ->].
    by rewrite length_fmap, routed_length.
Qed.

(** A boolean test that holds somewhere holds at a first position. *)
Lemma first_position (f : nat → bool) n :
  f n = true → ∃ m, m ≤ n ∧ f m = true ∧ ∀ j, j < m → f j = false.
Proof.
  assert ((∀ j, j < n → f j = false)
          ∨ (∃ m, m < n ∧ f m = true ∧ ∀ j, j < m → f j = false)) as [Hnone | Hsome].
  { induction n as [| n [Hnone | (m & Hm & Hfm & Hmin)]].
    - left. intros j Hj. lia.
    - destruct (f n) eqn:Hfn.
      + right. exists n. repeat split; [lia | done..].
      + left. intros j Hj. destruct (decide (j = n)) as [-> | Hne]; [done |].
        apply Hnone. lia.
    - right. exists m. repeat split; [lia | done..]. }
  - intros Hn. exists n. repeat split; [lia | done..].
  - intros _. destruct Hsome as (m & Hm & Hfm & Hmin).
    exists m. repeat split; [lia | done..].
Qed.

(** ** Properties of the executor *)

(** Splits a goal about [doBatch got batch] along the four ways through
    the function, rewriting the call in each. *)
Ltac doBatch_paths got batch :=
  let c := fresh "c" in let e := fresh "e" in
  let Hx := fresh "Hx" in let Hf := fresh "Hf" in
  let k := fresh "k" in let Hk := fresh "Hk" in
  let Hok := fresh "Hok" in let Hfail := fresh "Hfail" in
  destruct got as [c [e |]];
  [ rewrite (doBatch_no_connection c e batch)
  | destruct (exchange_ok c batch) eqn:Hx;
    [ rewrite (doBatch_exchanged c batch Hx)
    | destruct (exchange_failed c batch Hx) as [[e Hf] | (Hf & k & e & Hk & Hok & Hfail)];
      [ rewrite (doBatch_flush_failed c e batch Hf)
      | rewrite (doBatch_read_failed c batch k e Hf Hk Hok Hfail) ] ] ].

Ltac count_events :=
  cbn [fst snd];
  repeat first
    [ rewrite count_event_cons
    | rewrite count_event_app
    | rewrite count_event_sends by done
    | rewrite count_event_receives by done ];
  try reflexivity.

(** C6. In [doBatch] the connection is released to the pool exactly when
    one was acquired and the flush and every read succeeded; when the
    flush or a read failed on an acquired connection it is shut down
    instead, and never released. *)
Theorem doBatch_releases_only_after_full_exchange got batch :
  let tr := (doBatch got batch).2 in
  let acquired := bool_decide (got.2 = None) in
  count_event is_release tr
    = (if acquired && exchange_ok got.1 batch then 1 else 0)
  ∧ count_event is_shutdown tr
    = (if acquired && negb (exchange_ok got.1 batch) then 1 else 0).
Proof.
  cbn zeta. doBatch_paths got batch; cbn [fst snd].
  - (* no connection *) done.
  - (* full exchange *) rewrite Hx. split; count_events.
  - (* flush failed *) rewrite Hx. split; count_events.
  - (* read [k] failed *) rewrite Hx. split; count_events.
Qed.

(** C7. On every path through [doBatch] (no connection, failed flush,
    failed read, full success) the executor sends on the group's [done]
    channel exactly once, as the last thing it does. *)
Theorem doBatch_signals_done_once got batch :
  count_event is_done (doBatch got batch).2 = 1
  ∧ last (doBatch got batch).2 = Some EvDone.
Proof.
  doBatch_paths got batch; cbn [snd]; (split; [count_events |]).
  - (* no connection *) done.
  - (* full exchange *) by rewrite last_cons, last_app, last_cons, last_app.
  - (* flush failed *) by rewrite last_cons, last_app.
  - (* read [k] failed *) by rewrite last_cons, last_app, last_cons, last_app.
Qed.

(** C8. When the [k]-th read of [doBatch] fails, the group's [err] is that
    read's error, the commands before position [k] hold the replies read
    for them, and the commands from position [k] on are left as they
    were: with reply and err unset in a queue that [Put] built. *)
Theorem doBatch_read_failure_leaves_rest_unset c batch k e :
  flush c = None →
  k < length (cmds batch) →
  (∀ j, j < k → (receive c j).2 = None) →
  (receive c k).2 = Some e →
  let batch' := (doBatch (c, None) batch).1 in
  err batch' = Some e
  ∧ (∀ j nc, j < k → cmds batch !! j = Some nc →
       cmds batch' !! j = Some (set_reply (receive c j).1 None nc))
  ∧ drop k (cmds batch') = drop k (cmds batch)
  ∧ (Forall unset (cmds batch) → Forall unset (drop k (cmds batch'))).
Proof.
  intros Hf Hk Hok Hfail. cbn zeta.
  rewrite (doBatch_read_failed c batch k e Hf Hk Hok Hfail). cbn [fst].
  assert (length (assign c 0 (take k (cmds batch))) = k) as Hlen
    by (rewrite assign_length, length_take; lia).
  assert (drop k (assign c 0 (take k (cmds batch)) ++ drop k (cmds batch))
          = drop k (cmds batch)) as Hdrop
    by (by rewrite drop_app_length').
  split; [done |]. split; [| split].
  - intros j nc Hj Hnc. simpl.
    rewrite lookup_app_l by lia.
    rewrite assign_lookup, lookup_take_lt by done. by rewrite Hnc.
  - done.
  - simpl. rewrite Hdrop. apply Forall_drop.
Qed.

(** ** Properties of [Put] *)

Lemma enqueue_extends n c a b :
  node <$> batches b `prefix_of` node <$> batches (enqueue n c a b)
  ∧ index b `prefix_of` index (enqueue n c a b).
Proof.
  destruct (enqueue_cases n c a b) as [[_ ->] | (g & nb & _ & _ & ->)]; simpl.
  - rewrite fmap_app. split; by eexists.
  - rewrite (list_fmap_alter node _ id) by (by apply Forall_true).
    rewrite list_alter_id by done. split; [done | by eexists].
Qed.

Lemma Put_extends rt cl b c a :
  node <$> batches b `prefix_of` node <$> batches (state_after (Put rt cl b c a)).2
  ∧ index b `prefix_of` index (state_after (Put rt cl b c a)).2.
Proof.
  pose proof (enqueue_extends) as Henq.
  destruct (verb_cases c) as [H | [H | [H | [H | H]]]].
  - rewrite Put_ping by done. destruct (getRandomNode rt) as [n [e |]]; simpl; auto.
  - rewrite Put_multi_key by done. simpl. auto.
  - rewrite Put_MULTI by done. simpl. auto.
  - rewrite Put_EXEC by done. simpl. auto.
  - rewrite Put_keyed by done. destruct a as [| key rest]; [simpl; auto |].
    destruct (getNodeByKey rt key) as [n [e |]]; [simpl; auto |].
    unfold same_slot_failure.
    destruct (transactionEnable cl); [| simpl; auto].
    destruct (node_eqb (transactionNode cl) None); [simpl; auto |].
    destruct (negb (node_eqb (transactionNode cl) n)); [| simpl; auto].
    destruct (assert_bytes key); simpl; auto.
Qed.

Lemma run_puts_extends calls cl b cl' b' oks :
  run_puts calls cl b = (cl', b', oks) →
  node <$> batches b `prefix_of` node <$> batches b'
  ∧ index b `prefix_of` index b'.
Proof.
  revert cl b cl' b' oks.
  induction calls as [| k calls IH]; intros cl b cl' b' oks Hrun; simpl in Hrun.
  - by simplify_eq.
  - pose proof (Put_extends (call_router k) cl b (call_cmd k) (call_args k)) as [Hn Hi].
    destruct (Put _ _ _ _ _) as [cl1 b1 [e |] | cl1 b1]; simpl in Hn, Hi.
    + destruct (IH _ _ _ _ _ Hrun). split; by etrans.
    + destruct (run_puts calls cl1 b1) as [[cl2 b2] oks2] eqn:Hrest. simplify_eq.
      destruct (IH _ _ _ _ _ Hrest). split; by etrans.
    + destruct (IH _ _ _ _ _ Hrun). split; by etrans.
Qed.

(** The same-slot check, when it fails. *)
Lemma Put_same_slot_check rt cl b c key rest n :
  is_keyed c →
  transactionEnable cl = true →
  transactionNode cl ≠ None →
  getNodeByKey rt key = (n, None) →
  n ≠ transactionNode cl →
  Put rt cl b c (key :: rest) = same_slot_failure cl b c key.
Proof.
  intros Hc Hen Hpin Hroute Hne. rewrite Put_keyed by done.
  rewrite Hroute, Hen. unfold node_eqb.
  rewrite bool_decide_eq_false_2 by done.
  rewrite (bool_decide_eq_false_2 (transactionNode cl = n)) by congruence.
  done.
Qed.

(** C2. [Put] of MGET, MSET or MSETNX, whatever the arguments, and [Put]
    of a keyed command without arguments return an error and leave the
    batch (and the cluster) as they were: the same groups and the same
    index. *)
Theorem Put_rejected_leaves_batch_unchanged rt cl b c a :
  is_multi_key c ∨ (is_keyed c ∧ a = []) →
  ∃ e b', Put rt cl b c a = PutReturn cl b' (Some e)
    ∧ b' = b
    ∧ length (batches b') = length (batches b)
    ∧ length (index b') = length (index b).
Proof.
  intros [Hm | [Hk ->]].
  - rewrite Put_multi_key by done. by eexists _, b.
  - rewrite Put_keyed by done. by eexists _, b.
Qed.

(** C3. With a transaction open and pinned to a node, a keyed [Put]
    whose key resolves to another node and is not a byte slice does not
    return the same-slot error: the type assertion made while the message
    is formatted panics. *)
Theorem Put_same_slot_violation_panics rt cl b c key rest n :
  is_keyed c →
  transactionEnable cl = true →
  transactionNode cl ≠ None →
  getNodeByKey rt key = (n, None) →
  n ≠ transactionNode cl →
  assert_bytes key = None →
  Put rt cl b c (key :: rest) = PutPanic cl b.
Proof.
  intros Hc Hen Hpin Hroute Hne Hkey.
  rewrite (Put_same_slot_check rt cl b c key rest n) by done.
  unfold same_slot_failure. by rewrite Hkey.
Qed.

Lemma scan_from_first n rest j i nb :
  i < scan_from n rest j - j → rest !! i = Some nb → node nb ≠ n.
Proof.
  revert j i. induction rest as [| nb0 rest IH]; intros j i Hi Hnb; [done |].
  simpl in Hi. unfold node_eqb in Hi. case_bool_decide as Hn; [lia |].
  destruct i as [| i]; simpl in Hnb.
  - by simplify_eq.
  - apply (IH (S j) i); [lia | done].
Qed.

(** The enqueue step, spelled out on the lists: the command goes to the
    end of the queue of the first group on node [n], and when there is
    no such group a new one is appended. Nothing else is changed. *)
Lemma enqueue_exact n c a b :
  (∃ g nb,
     batches b !! g = Some nb
     ∧ node nb = n
     ∧ (∀ j nb', j < g → batches b !! j = Some nb' → node nb' ≠ n)
     ∧ enqueue n c a b
         = mkBatch
             (<[g := mkNodeBatch n (cmds nb ++ [mkCommand c a I_nil None]) (err nb)]>
                (batches b))
             (index b ++ [g]))
  ∨ ((∀ nb, nb ∈ batches b → node nb ≠ n)
     ∧ enqueue n c a b
         = mkBatch (batches b ++ [mkNodeBatch n [mkCommand c a I_nil None] None])
                   (index b ++ [length (batches b)])).
Proof.
  unfold enqueue.
  destruct (scan_from_spec n (batches b) 0) as [[Hi Hnot] | (nb & _ & Hlt & Hlk & Hnode)].
  - right. split.
    + intros nb Hnb Hn. apply Hnot. apply list_elem_of_fmap. by exists nb.
    + rewrite Hi. simpl. by rewrite decide_True.
  - left. rewrite Nat.sub_0_r in Hlk. exists (scan_from n (batches b) 0), nb.
    split; [done |]. split; [done |]. split.
    + intros j nb' Hj Hnb'. apply (scan_from_first n (batches b) 0 j nb'); [lia | done].
    + rewrite decide_False by lia. f_equal.
      rewrite list_insert_alter. apply list_alter_ext; [| done].
      intros x Hx. rewrite Hlk in Hx. injection Hx as <-.
      unfold push_cmd, new_command. by rewrite Hnode.
Qed.

(** C4 (amended). [Put] of MULTI or EXEC sets, respectively clears, the
    transaction flag of the cluster (the pinned node is kept), returns no
    error and enqueues the command like any other, on the nil node: the
    command is appended to the queue of the first group whose node is nil
    and that group's position is appended to the index, or, when no group
    has a nil node, a new group holding the command alone is appended to
    the groups and its position to the index. The other groups, and the
    index entries that were there, are left as they were. *)
Theorem Put_transaction_verb_is_enqueued rt cl b c a v :
  v ∈ transaction_verbs →
  is_verb v c →
  ∃ b',
    Put rt cl b c a
      = PutReturn (mkCluster (bool_decide (v = "MULTI")) (transactionNode cl)) b' None
    ∧ ((∃ g nb,
          batches b !! g = Some nb
          ∧ node nb = None
          ∧ (∀ j nb', j < g → batches b !! j = Some nb' → node nb' ≠ None)
          ∧ batches b'
              = <[g := mkNodeBatch None (cmds nb ++ [mkCommand c a I_nil None]) (err nb)]>
                  (batches b)
          ∧ index b' = index b ++ [g])
       ∨ ((∀ nb, nb ∈ batches b → node nb ≠ None)
          ∧ batches b'
              = batches b ++ [mkNodeBatch None [mkCommand c a I_nil None] None]
          ∧ index b' = index b ++ [length (batches b)])).
Proof.
  intros Hv Hc.
  assert (Put rt cl b c a
    = PutReturn (mkCluster (bool_decide (v = "MULTI")) (transactionNode cl))
                (enqueue None c a b) None) as ->.
  { unfold transaction_verbs in Hv. rewrite !elem_of_cons, elem_of_nil in Hv.
    destruct Hv as [-> | [-> | []]].
    - by rewrite Put_MULTI.
    - by rewrite Put_EXEC. }
  exists (enqueue None c a b). split; [done |].
  destruct (enqueue_exact None c a b)
    as [(g & nb & Hg & Hnode & Hfirst & ->) | [Hnone ->]].
  - left. by exists g, nb.
  - by right.
Qed.

(** C9. After any sequence of [Put] calls on a new batch the index has
    one entry per call that returned no error, every entry is a position
    in the list of groups, there is one group per node, the groups stand
    in the order in which the index first names them, and further calls
    only append to the list of groups and to the index. *)
Theorem Put_index_invariant calls more cl cl1 b1 oks1 cl2 b2 oks2 :
  run_puts calls cl NewBatch = (cl1, b1, oks1) →
  run_puts more cl1 b1 = (cl2, b2, oks2) →
  length (index b1) = length oks1
  ∧ Forall (λ g, g < length (batches b1)) (index b1)
  ∧ NoDup (node <$> batches b1)
  ∧ first_touch_order (index b1) (length (batches b1))
  ∧ node <$> batches b1 `prefix_of` node <$> batches b2
  ∧ index b1 `prefix_of` index b2.
Proof.
  intros Hrun Hmore.
  destruct (run_puts_built calls cl NewBatch [] cl1 b1 oks1 built_empty Hrun)
    as [Hlen Hrange Hnodes Htouch _].
  destruct (run_puts_extends more cl1 b1 cl2 b2 oks2 Hmore) as [Hn Hi].
  done.
Qed.

(** C10. [Put] of EXEC changes nothing of the cluster but the transaction
    flag, which it clears; no [Put] ever changes a pinned transaction node.
    So after EXEC and a new MULTI the node of the previous transaction is
    still pinned, and a keyed command that resolves to another node fails
    the same-slot check. *)
Theorem Put_EXEC_keeps_pinned_node rt1 rt2 rt3 cl b exec a1 multi a2 c key rest n :
  is_verb "EXEC" exec →
  is_verb "MULTI" multi →
  is_keyed c →
  transactionNode cl ≠ None →
  getNodeByKey rt3 key = (n, None) →
  n ≠ transactionNode cl →
  ∃ b1 b2,
    Put rt1 cl b exec a1 = PutReturn (set_transactionEnable false cl) b1 None
    ∧ Put rt2 (set_transactionEnable false cl) b1 multi a2
        = PutReturn (set_transactionEnable true cl) b2 None
    ∧ transactionNode (set_transactionEnable true cl) = transactionNode cl
    ∧ Put rt3 (set_transactionEnable true cl) b2 c (key :: rest)
        = same_slot_failure (set_transactionEnable true cl) b2 c key
    ∧ (∀ rt cl0 b0 c0 a0, transactionNode cl0 ≠ None →
         transactionNode (state_after (Put rt cl0 b0 c0 a0)).1 = transactionNode cl0).
Proof.
  intros Hexec Hmulti Hc Hpin Hroute Hne.
  exists (enqueue None exec a1 b), (enqueue None multi a2 (enqueue None exec a1 b)).
  split; [by apply Put_EXEC |]. split; [by rewrite Put_MULTI |].
  split; [done |]. split; [by apply (Put_same_slot_check _ _ _ _ _ _ n) |].
  intros rt cl0 b0 c0 a0 Hpin0.
  destruct (verb_cases c0) as [H | [H | [H | [H | H]]]].
  - rewrite Put_ping by done. by destruct (getRandomNode rt) as [n' [e |]].
  - by rewrite Put_multi_key.
  - by rewrite Put_MULTI.
  - by rewrite Put_EXEC.
  - rewrite Put_keyed by done. destruct a0 as [| key0 rest0]; [done |].
    destruct (getNodeByKey rt key0) as [n' [e |]]; [done |].
    unfold same_slot_failure, node_eqb.
    rewrite (bool_decide_eq_false_2 (transactionNode cl0 = None)) by done.
    destruct (transactionEnable cl0); [| done].
    destruct (negb _); [| done]. by destruct (assert_bytes key0).
Qed.

(** ** Properties of [RunBatch] *)

(** C1. For a batch built by [Put] calls on a new batch, when no group
    carries an error after the executors have run, [RunBatch] returns a
    nil error and one reply per accepted call, in the order of the calls:
    the [i]-th reply is the one that the executor of the group named by
    the [i]-th index entry read for the [i]-th accepted call's command,
    which stands in that group's queue at the rank of [i]. *)
Theorem RunBatch_replies_in_submission_order calls cl pool cl' bat oks :
  run_puts calls cl NewBatch = (cl', bat, oks) →
  (∀ g r, execute pool (batches bat) !! g = Some r → err r.1 = None) →
  ∃ replies,
    RunBatch pool bat = RunReturn replies None
    ∧ slice_len replies = length oks
    ∧ ∀ i k, oks !! i = Some k →
        ∃ g nb v,
          index bat !! i = Some g
          ∧ batches bat !! g = Some nb
          ∧ cmds nb !! rank (index bat) i g = Some (command_of k)
          ∧ v = (receive (pool g).1 (rank (index bat) i g)).1
          ∧ cmds (doBatch (pool g) nb).1 !! rank (index bat) i g
              = Some (set_reply v None (command_of k))
          ∧ slice_at replies i = Some v.
Proof.
  intros Hrun Hclean.
  pose proof (run_puts_built calls cl NewBatch [] cl' bat oks built_empty Hrun) as Hb.
  simpl in Hb.
  destruct (reconstruct_replies (index bat) ((execute pool (batches bat)).*1) None)
    as (rs & Hrec & Hlen & Hrs).
  { by eapply built_enough. }
  { intros g nb Hnb. rewrite list_lookup_fmap in Hnb.
    destruct (execute pool (batches bat) !! g) as [r |] eqn:Hr; simplify_eq/=.
    by eapply Hclean. }
  exists (foldl slice_append None rs).
  split; [by rewrite RunBatch_reconstruct |].
  split; [by rewrite slice_extend_nil_len, Hlen, (built_length _ _ Hb) |].
  intros i k Hk.
  destruct (lookup_lt_is_Some_2 (index bat) i) as [g Hg].
  { rewrite (built_length _ _ Hb). by eapply lookup_lt_Some. }
  destruct (Hrs i g Hg) as (nb' & nc & Hnb' & Hnc & Hri).
  rewrite list_lookup_fmap, execute_lookup in Hnb'.
  destruct (batches bat !! g) as [nb |] eqn:Hnb; simplify_eq/=.
  destruct (built_groups _ _ Hb g nb Hnb) as [_ Hcmds].
  assert (cmds nb !! rank (index bat) i g = Some (command_of k)) as Hslot.
  { rewrite Hcmds, list_lookup_fmap. by rewrite (routed_lookup g _ _ i k). }
  destruct (doBatch_group (pool g) nb) as (_ & _ & Hassign).
  rewrite Hassign in Hnc.
  2: { apply (Hclean g). by rewrite execute_lookup, Hnb. }
  rewrite assign_lookup, Hslot in Hnc. simpl in Hnc. simplify_eq.
  exists g, nb, (receive (pool g).1 (rank (index bat) i g)).1.
  repeat split; [done.. | |].
  - rewrite Hassign by (apply (Hclean g); by rewrite execute_lookup, Hnb).
    by rewrite assign_lookup, Hslot.
  - by rewrite slice_extend_nil_at.
Qed.

(** C5. For a batch built by [Put] calls on a new batch, when some group
    carries an error after the executors have run, [RunBatch] returns the
    nil reply list and the error of the first group, in the order of the
    index, that carries one: the replies of the commands before it are
    not returned. *)
Theorem RunBatch_returns_first_error calls cl pool cl' bat oks :
  run_puts calls cl NewBatch = (cl', bat, oks) →
  (∃ g r, execute pool (batches bat) !! g = Some r ∧ err r.1 ≠ None) →
  ∃ i g r e,
    index bat !! i = Some g
    ∧ execute pool (batches bat) !! g = Some r
    ∧ err r.1 = Some e
    ∧ (∀ j h r', j < i → index bat !! j = Some h →
         execute pool (batches bat) !! h = Some r' → err r'.1 = None)
    ∧ RunBatch pool bat = RunReturn None (Some e).
Proof.
  intros Hrun (g0 & r0 & Hr0 & He0).
  pose proof (run_puts_built calls cl NewBatch [] cl' bat oks built_empty Hrun) as Hb.
  simpl in Hb.
  assert (g0 < length (batches bat)) as Hg0.
  { apply lookup_lt_Some in Hr0. unfold execute in Hr0. by rewrite length_imap in Hr0. }
  destruct (built_touch _ _ Hb g0 Hg0) as (i0 & Hi0 & _).
  assert (fails_at pool bat i0 = true) as Hf0.
  { unfold fails_at. rewrite Hi0, Hr0. by apply bool_decide_eq_true. }
  destruct (first_position _ _ Hf0) as (i & _ & Hfi & Hmin).
  unfold fails_at in Hfi.
  destruct (index bat !! i) as [g |] eqn:Hg; [| done].
  destruct (execute pool (batches bat) !! g) as [r |] eqn:Hr; [| done].
  apply bool_decide_eq_true in Hfi.
  destruct (err r.1) as [e |] eqn:He; [| done].
  assert (∀ j h r', j < i → index bat !! j = Some h →
            execute pool (batches bat) !! h = Some r' → err r'.1 = None) as Hbefore.
  { intros j h r' Hj Hh Hr'. specialize (Hmin j Hj). unfold fails_at in Hmin.
    rewrite Hh, Hr' in Hmin. apply bool_decide_eq_false in Hmin.
    by destruct (err r'.1); [exfalso; apply Hmin |]. }
  exists i, g, r, e. repeat split; [done.. |].
  rewrite RunBatch_reconstruct.
  apply (reconstruct_first_error _ _ _ i g r.1 e).
  - by eapply built_enough.
  - done.
  - by rewrite list_lookup_fmap, Hr.
  - done.
  - intros j h nb' Hj Hh Hnb'. rewrite list_lookup_fmap in Hnb'.
    destruct (execute pool (batches bat) !! h) as [r' |] eqn:Hr'; simplify_eq/=.
    by eapply Hbefore.
Qed.

(** ** What one call of [Put] does to the batch *)

Lemma Put_accepted_enqueue rt cl b c a cl' b' :
  Put rt cl b c a = PutReturn cl' b' None →
  b' = enqueue (target (mkCall rt c a)) c a b.
Proof.
  unfold target. simpl.
  destruct (verb_cases c) as [H | [H | [H | [H | H]]]].
  - rewrite Put_ping by done. unfold is_ping in H. rewrite H.
    destruct (getRandomNode rt) as [n [e |]]; simpl; congruence.
  - rewrite Put_multi_key by done. congruence.
  - rewrite Put_MULTI by done. destruct H as [Hp Hu]. rewrite Hp, Hu.
    rewrite bool_decide_eq_true_2 by (unfold transaction_verbs; repeat constructor).
    congruence.
  - rewrite Put_EXEC by done. destruct H as [Hp Hu]. rewrite Hp, Hu.
    rewrite bool_decide_eq_true_2 by (unfold transaction_verbs; repeat constructor).
    congruence.
  - rewrite Put_keyed by done. destruct H as (Hp & _ & Ht). rewrite Hp.
    rewrite bool_decide_eq_false_2 by done.
    destruct a as [| key rest]; [congruence |].
    destruct (getNodeByKey rt key) as [n [e |]]; [congruence |]. simpl.
    unfold same_slot_failure.
    destruct (transactionEnable cl); [| congruence].
    destruct (node_eqb (transactionNode cl) None); [congruence |].
    destruct (negb (node_eqb (transactionNode cl) n)); [| congruence].
    destruct (assert_bytes key); congruence.
Qed.

Lemma Put_refused_unchanged rt cl b c a :
  match Put rt cl b c a with
  | PutReturn _ _ None => True
  | PutReturn cl' b' (Some _) => cl' = cl ∧ b' = b
  | PutPanic cl' b' => cl' = cl ∧ b' = b
  end.
Proof.
  destruct (verb_cases c) as [H | [H | [H | [H | H]]]].
  - rewrite Put_ping by done. by destruct (getRandomNode rt) as [n [e |]].
  - by rewrite Put_multi_key.
  - by rewrite Put_MULTI.
  - by rewrite Put_EXEC.
  - rewrite Put_keyed by done. destruct a as [| key rest]; [done |].
    destruct (getNodeByKey rt key) as [n [e |]]; [done |].
    unfold same_slot_failure.
    destruct (transactionEnable cl); [| done].
    destruct (node_eqb (transactionNode cl) None); [done |].
    destruct (negb (node_eqb (transactionNode cl) n)); [| done].
    by destruct (assert_bytes key).
Qed.

Lemma queued_total_alter nc bs g :
  g < length bs →
  sum_list (length ∘ cmds <$> alter (push_cmd nc) g bs)
    = S (sum_list (length ∘ cmds <$> bs)).
Proof.
  revert g. induction bs as [| nb bs IH]; intros g Hg; simpl in Hg; [lia |].
  destruct g as [| g].
  - simpl. rewrite length_app. simpl. lia.
  - specialize (IH g ltac:(lia)).
    change (alter (push_cmd nc) (S g) (nb :: bs)) with (nb :: alter (push_cmd nc) g bs).
    rewrite !fmap_cons. cbn [sum_list sum_list_with]. rewrite IH. lia.
Qed.

Lemma sum_list_append (l k : list nat) :
  sum_list (l ++ k) = sum_list l + sum_list k.
Proof. induction l as [| m l IH]; simpl; lia. Qed.

Lemma enqueue_total n c a b :
  queued_total (enqueue n c a b) = S (queued_total b).
Proof.
  unfold queued_total.
  destruct (enqueue_cases n c a b) as [[_ ->] | (g & nb & Hg & _ & ->)];
    cbn [batches].
  - rewrite fmap_app, sum_list_append. simpl. lia.
  - apply queued_total_alter. by eapply lookup_lt_Some.
Qed.

(** X1. A call of [Put] either returns a nil error, having added exactly
    one entry to the index and exactly one command to the queues, or it
    leaves the batch and the cluster as they were (when it returns an
    error, and when it panics). *)
Theorem Put_adds_one_command_or_nothing rt cl b c a :
  match Put rt cl b c a with
  | PutReturn cl' b' None =>
      length (index b') = S (length (index b))
      ∧ queued_total b' = S (queued_total b)
  | PutReturn cl' b' (Some _) => cl' = cl ∧ b' = b
  | PutPanic cl' b' => cl' = cl ∧ b' = b
  end.
Proof.
  pose proof (Put_refused_unchanged rt cl b c a) as Href.
  pose proof (Put_accepted_enqueue rt cl b c a) as Hacc.
  destruct (Put rt cl b c a) as [cl' b' [e |] | cl' b']; [done | | done].
  rewrite (Hacc cl' b' eq_refl).
  split; [apply enqueue_index_length | apply enqueue_total].
Qed.

Lemma enqueue_lands n c a b :
  ∃ g nb,
    index (enqueue n c a b) = index b ++ [g]
    ∧ batches (enqueue n c a b) !! g = Some nb
    ∧ node nb = n
    ∧ last (cmds nb) = Some (new_command c a).
Proof.
  destruct (enqueue_cases n c a b) as [[_ ->] | (g & nb & Hg & Hnode & ->)]; simpl.
  - exists (length (batches b)), (mkNodeBatch n [new_command c a] None).
    repeat split. by apply list_lookup_middle.
  - exists g, (push_cmd (new_command c a) nb). repeat split; [| done |].
    + by rewrite list_lookup_alter_eq, Hg.
    + simpl. apply last_snoc.
Qed.


(** X3. [Put] panics in one situation only: a keyed command, in
    transaction mode with a pinned node, whose key resolves without
    error to another node and is not a byte slice. *)
Theorem Put_panics_only_in_the_same_slot_check rt cl b c a cl' b' :
  Put rt cl b c a = PutPanic cl' b' →
  is_keyed c
  ∧ transactionEnable cl = true
  ∧ transactionNode cl ≠ None
  ∧ ∃ key rest n,
      a = key :: rest
      ∧ getNodeByKey rt key = (n, None)
      ∧ n ≠ transactionNode cl
      ∧ assert_bytes key = None.
Proof.
  destruct (verb_cases c) as [H | [H | [H | [H | H]]]].
  - rewrite Put_ping by done. by destruct (getRandomNode rt) as [n [e |]].
  - by rewrite Put_multi_key.
  - by rewrite Put_MULTI.
  - by rewrite Put_EXEC.
  - rewrite Put_keyed by done. destruct a as [| key rest]; [done |].
    destruct (getNodeByKey rt key) as [n [e |]] eqn:Hroute; [done |].
    unfold same_slot_failure, node_eqb.
    destruct (transactionEnable cl); [| done].
    case_bool_decide as Hpin; [done |].
    case_bool_decide as Hn; [done |]. simpl.
    destruct (assert_bytes key) eqn:Hkey; [done |]. intros _.
    split; [exact H |]. split; [done |]. split; [done |].
    exists key, rest, n. split; [done |]. split; [done |]. split; [congruence | done].
Qed.

(** X4. The verbs are recognised in any letter case. For an ASCII verb
    [c]: if its upper-case form is MGET, MSET or MSETNX the call is
    refused, with the verb spelled in the message as the caller wrote it;
    if it is MULTI or EXEC the transaction flag is set or cleared; if it
    is PING the random pick is used. *)
Theorem Put_verbs_in_any_letter_case rt cl b c a :
  isASCII c = true →
  (map_bytes upper_byte c ∈ multi_key_verbs →
     Put rt cl b c a = PutReturn cl b (Some ("Put: " +:+ c +:+ " not supported")))
  ∧ (map_bytes upper_byte c = "MULTI" →
       Put rt cl b c a
         = PutReturn (set_transactionEnable true cl) (enqueue None c a b) None)
  ∧ (map_bytes upper_byte c = "EXEC" →
       Put rt cl b c a
         = PutReturn (set_transactionEnable false cl) (enqueue None c a b) None)
  ∧ (map_bytes upper_byte c = "PING" →
       Put rt cl b c a
         = match getRandomNode rt with
           | (_, Some e) => PutReturn cl b (Some ("Put PING: " +:+ e))
           | (n, None) => PutReturn cl (enqueue n c a b) None
           end).
Proof.
  intros Hc. repeat split.
  - intros Hm. apply Put_multi_key. exists (map_bytes upper_byte c).
    split; [done |]. apply ascii_is_verb; [done |]. intros Heq. rewrite Heq in Hm.
    unfold multi_key_verbs in Hm. rewrite !elem_of_cons, elem_of_nil in Hm.
    by destruct Hm as [? | [? | [? | []]]].
  - intros Hu. apply Put_MULTI. rewrite <- Hu. apply ascii_is_verb; [done |].
    by rewrite Hu.
  - intros Hu. apply Put_EXEC. rewrite <- Hu. apply ascii_is_verb; [done |].
    by rewrite Hu.
  - intros Hu. apply Put_ping. by apply ascii_is_ping.
Qed.

(** ** Transactions *)

(** X5. In transaction mode a keyed command is accepted only on the node
    of the transaction: after an accepted call the cluster is still in
    transaction mode and pinned to the node that the key resolved to, and
    a node that was pinned before the call is still the pinned one. *)
Theorem Put_accepts_in_transaction_on_pinned_node rt cl b c a cl' b' :
  is_keyed c →
  transactionEnable cl = true →
  Put rt cl b c a = PutReturn cl' b' None →
  ∃ key rest,
    a = key :: rest
    ∧ getNodeByKey rt key = (transactionNode cl', None)
    ∧ transactionEnable cl' = true
    ∧ (transactionNode cl ≠ None → cl' = cl).
Proof.
  intros Hc Hen. rewrite Put_keyed by done.
  destruct a as [| key rest]; [done |].
  destruct (getNodeByKey rt key) as [n [e |]] eqn:Hroute; [done |].
  rewrite Hen. unfold same_slot_failure, node_eqb.
  case_bool_decide as Hpin.
  - intros [= <- <-]. exists key, rest. by repeat split.
  - case_bool_decide as Hn; simpl.
    + intros [= <- <-]. exists key, rest. repeat split; [| done..]. by rewrite Hn.
    + by destruct (assert_bytes key).
Qed.

Lemma run_puts_app l1 l2 cl b :
  run_puts (l1 ++ l2) cl b =
    let '(cl1, b1, o1) := run_puts l1 cl b in
    let '(cl2, b2, o2) := run_puts l2 cl1 b1 in
    (cl2, b2, o1 ++ o2).
Proof.
  revert cl b. induction l1 as [| k l1 IH]; intros cl b; simpl.
  - by destruct (run_puts l2 cl b) as [[cl2 b2] o2].
  - destruct (Put _ _ _ _ _) as [cl1 b1 [e |] | cl1 b1]; [apply IH | | apply IH].
    rewrite IH. destruct (run_puts l1 cl1 b1) as [[cl1' b1'] o1].
    by destruct (run_puts l2 cl1' b1') as [[cl2 b2] o2].
Qed.

Lemma Put_resolved_in_transaction k cl b p :
  resolves_to (Some p) k →
  transactionEnable cl = true →
  transactionNode cl = None ∨ transactionNode cl = Some p →
  Put (call_router k) cl b (call_cmd k) (call_args k)
    = PutReturn (mkCluster true (Some p))
        (enqueue (Some p) (call_cmd k) (call_args k) b) None.
Proof.
  intros (Hc & key & rest & Ha & Hroute) Hen Hpin.
  rewrite Put_keyed by done. rewrite Ha, Hroute, Hen. unfold node_eqb.
  destruct cl as [en pin]. simpl in *. subst en.
  destruct Hpin as [-> | ->].
  - by rewrite bool_decide_eq_true_2.
  - rewrite bool_decide_eq_false_2 by done. by rewrite bool_decide_eq_true_2.
Qed.

Lemma run_puts_pinned keyed cl b p :
  Forall (resolves_to (Some p)) keyed →
  transactionEnable cl = true →
  transactionNode cl = None ∨ transactionNode cl = Some p →
  ∃ b', run_puts keyed cl b
          = (match keyed with [] => cl | _ => mkCluster true (Some p) end, b', keyed).
Proof.
  intros Hall. revert cl b. induction Hall as [| k keyed Hk _ IH]; intros cl b Hen Hpin.
  - by exists b.
  - simpl. rewrite (Put_resolved_in_transaction k cl b p) by done.
    destruct (IH (mkCluster true (Some p))
                 (enqueue (Some p) (call_cmd k) (call_args k) b))
      as [b' Hrun]; [done | by right |].
    rewrite Hrun. exists b'. by destruct keyed.
Qed.

(** X6. A transaction on one node goes through: MULTI, then any number of
    keyed commands whose keys all resolve to the same node [p], then
    EXEC, are all accepted, on a cluster that is not pinned to another
    node. Afterwards the transaction flag is cleared and, when there was
    a keyed command, the cluster is left pinned to [p]. *)
Theorem transaction_on_one_node_is_accepted rtm rte multi am exec ae keyed cl b p :
  is_verb "MULTI" multi →
  is_verb "EXEC" exec →
  Forall (resolves_to (Some p)) keyed →
  transactionNode cl = None ∨ transactionNode cl = Some p →
  ∃ b',
    run_puts (mkCall rtm multi am :: keyed ++ [mkCall rte exec ae]) cl b
      = (mkCluster false
           (match keyed with [] => transactionNode cl | _ => Some p end),
         b',
         mkCall rtm multi am :: keyed ++ [mkCall rte exec ae]).
Proof.
  intros Hm He Hall Hpin.
  cbn [run_puts call_router call_cmd call_args]. rewrite Put_MULTI by done.
  rewrite run_puts_app.
  destruct (run_puts_pinned keyed (set_transactionEnable true cl)
              (enqueue None multi am b) p Hall eq_refl Hpin) as [b1 ->].
  cbn [run_puts call_router call_cmd call_args]. rewrite Put_EXEC by done.
  eexists. by destruct keyed.
Qed.

(** ** Grouping by node *)

Lemma enqueue_keeps n c a b g nb :
  batches b !! g = Some nb →
  ∃ nb', batches (enqueue n c a b) !! g = Some nb'
    ∧ node nb' = node nb ∧ err nb' = err nb
    ∧ cmds nb `prefix_of` cmds nb'.
Proof.
  intros Hg.
  destruct (enqueue_cases n c a b) as [[_ ->] | (g' & nb0 & Hg' & _ & ->)]; simpl.
  - exists nb. split; [by apply lookup_app_l_Some | done].
  - rewrite list_lookup_alter. destruct (decide (g' = g)) as [-> | Hne].
    + rewrite Hg. simpl. eexists. split; [done |]. simpl. repeat split.
      by eexists.
    + by exists nb.
Qed.

Lemma Put_keeps rt cl b c a g nb :
  batches b !! g = Some nb →
  ∃ nb', batches (state_after (Put rt cl b c a)).2 !! g = Some nb'
    ∧ node nb' = node nb ∧ err nb' = err nb
    ∧ cmds nb `prefix_of` cmds nb'.
Proof.
  intros Hg.
  pose proof (Put_refused_unchanged rt cl b c a) as Href.
  pose proof (Put_accepted_enqueue rt cl b c a) as Hacc.
  destruct (Put rt cl b c a) as [cl' b' [e |] | cl' b']; simpl.
  - destruct Href as [_ ->]. by exists nb.
  - rewrite (Hacc cl' b' eq_refl). by apply enqueue_keeps.
  - destruct Href as [_ ->]. by exists nb.
Qed.

(** X7. [Put] only appends. After any sequence of calls, on any batch,
    every group that was there is still at its position, on the same
    node and with the same error field, and its queue starts with the
    commands it held: no queued command is changed, moved or dropped. *)
Theorem Put_never_touches_queued_commands calls cl b cl' b' oks :
  run_puts calls cl b = (cl', b', oks) →
  ∀ g nb, batches b !! g = Some nb →
    ∃ nb', batches b' !! g = Some nb'
      ∧ node nb' = node nb ∧ err nb' = err nb
      ∧ cmds nb `prefix_of` cmds nb'.
Proof.
  revert cl b cl' b' oks.
  induction calls as [| k calls IH]; intros cl b cl' b' oks Hrun g nb Hg;
    simpl in Hrun.
  - simplify_eq. by exists nb.
  - destruct (Put_keeps (call_router k) cl b (call_cmd k) (call_args k) g nb Hg)
      as (nb1 & Hg1 & Hn1 & He1 & Hc1).
    assert (∀ cl1 b1 o1, batches b1 !! g = Some nb1 →
              run_puts calls cl1 b1 = (cl', b', o1) →
              ∃ nb', batches b' !! g = Some nb'
                ∧ node nb' = node nb ∧ err nb' = err nb
                ∧ cmds nb `prefix_of` cmds nb') as Hstep.
    { intros cl1 b1 o1 Hb1 Hrest.
      destruct (IH _ _ _ _ _ Hrest g nb1 Hb1) as (nb' & ? & ? & ? & ?).
      exists nb'. repeat split; [done | congruence | congruence | by etrans]. }
    destruct (Put _ _ _ _ _) as [cl1 b1 [e |] | cl1 b1]; simpl in Hg1.
    + by eapply Hstep.
    + destruct (run_puts calls cl1 b1) as [[cl2 b2] oks2] eqn:Hrest. simplify_eq.
      by eapply Hstep.
    + by eapply Hstep.
Qed.

Lemma grouped_enqueue b oks k :
  length (index b) = length oks →
  grouped b oks →
  grouped (enqueue (target k) (call_cmd k) (call_args k) b) (oks ++ [k]).
Proof.
  intros Hlen Hgr i g k' Hi Hk'.
  destruct (enqueue_lands (target k) (call_cmd k) (call_args k) b)
    as (g0 & nb0 & Hidx & Hg0 & Hn0 & _).
  rewrite Hidx in Hi.
  destruct (decide (i < length oks)) as [Hlt | Hge].
  - rewrite lookup_app_l in Hi by lia. rewrite lookup_app_l in Hk' by done.
    destruct (Hgr i g k' Hi Hk') as (nb & Hnb & Hnode).
    destruct (enqueue_keeps (target k) (call_cmd k) (call_args k) b g nb Hnb)
      as (nb' & Hnb' & Hnode' & _).
    exists nb'. split; [done | congruence].
  - apply lookup_lt_Some in Hk' as Hi'. rewrite length_app in Hi'. simpl in Hi'.
    assert (i = length oks) as -> by lia.
    rewrite list_lookup_middle in Hk' by done.
    rewrite list_lookup_middle in Hi by done. simplify_eq.
    by exists nb0.
Qed.

Lemma run_puts_grouped calls cl b oks0 cl' b' oks :
  length (index b) = length oks0 →
  grouped b oks0 →
  run_puts calls cl b = (cl', b', oks) →
  length (index b') = length (oks0 ++ oks) ∧ grouped b' (oks0 ++ oks).
Proof.
  revert cl b oks0 cl' b' oks.
  induction calls as [| k calls IH]; intros cl b oks0 cl' b' oks Hlen Hgr Hrun;
    simpl in Hrun.
  - simplify_eq. by rewrite app_nil_r.
  - pose proof (Put_refused_unchanged (call_router k) cl b (call_cmd k) (call_args k))
      as Href.
    pose proof (Put_accepted_enqueue (call_router k) cl b (call_cmd k) (call_args k))
      as Hacc.
    destruct (Put _ _ _ _ _) as [cl1 b1 [e |] | cl1 b1].
    + destruct Href as [_ ->]. eauto.
    + destruct (run_puts calls cl1 b1) as [[cl2 b2] oks2] eqn:Hrest. simplify_eq.
      specialize (Hacc cl1 b1 eq_refl). replace (mkCall _ _ _) with k in Hacc
        by (by destruct k).
      subst b1. rewrite (app_assoc oks0 [k] oks2 : oks0 ++ k :: oks2 = _).
      eapply IH; [| by apply grouped_enqueue | done].
      rewrite enqueue_index_length, length_app. simpl. lia.
    + destruct Href as [_ ->]. eauto.
Qed.

(** X8. Commands are merged by node. In a batch built by [Put] every
    accepted command is queued on the group of its node, and two accepted
    commands share a group exactly when they go to the same node. *)
Theorem Put_merges_commands_by_node calls cl cl' bat oks :
  run_puts calls cl NewBatch = (cl', bat, oks) →
  (∀ i k, oks !! i = Some k →
     ∃ g nb, index bat !! i = Some g ∧ batches bat !! g = Some nb
       ∧ node nb = target k)
  ∧ (∀ i j ki kj, oks !! i = Some ki → oks !! j = Some kj →
       (index bat !! i = index bat !! j ↔ target ki = target kj)).
Proof.
  intros Hrun.
  pose proof (run_puts_built calls cl NewBatch [] cl' bat oks built_empty Hrun) as Hb.
  destruct (run_puts_grouped calls cl NewBatch [] cl' bat oks eq_refl) as [Hlen Hgr];
    [by intros [| i] | done |].
  simpl in Hb, Hlen, Hgr.
  assert (∀ i k, oks !! i = Some k →
            ∃ g nb, index bat !! i = Some g ∧ batches bat !! g = Some nb
              ∧ node nb = target k) as Hon.
  { intros i k Hk. destruct (lookup_lt_is_Some_2 (index bat) i) as [g Hg].
    { rewrite Hlen. by eapply lookup_lt_Some. }
    destruct (Hgr i g k Hg Hk) as (nb & Hnb & Hnode). by exists g, nb. }
  split; [done |].
  intros i j ki kj Hki Hkj.
  destruct (Hon i ki Hki) as (gi & nbi & Hgi & Hnbi & Hni).
  destruct (Hon j kj Hkj) as (gj & nbj & Hgj & Hnbj & Hnj).
  rewrite Hgi, Hgj. split.
  - intros [= ->]. congruence.
  - intros Heq. f_equal.
    apply (NoDup_lookup (node <$> batches bat) gi gj (target ki) (built_nodes _ _ Hb)).
    + rewrite list_lookup_fmap, Hnbi. simpl. by rewrite Hni.
    + rewrite list_lookup_fmap, Hnbj. simpl. by rewrite Hnj, Heq.
Qed.

Lemma run_puts_total calls cl b cl' b' oks :
  run_puts calls cl b = (cl', b', oks) →
  queued_total b' = queued_total b + length oks.
Proof.
  revert cl b cl' b' oks.
  induction calls as [| k calls IH]; intros cl b cl' b' oks Hrun; simpl in Hrun.
  - simplify_eq. simpl. lia.
  - pose proof (Put_refused_unchanged (call_router k) cl b (call_cmd k) (call_args k))
      as Href.
    pose proof (Put_accepted_enqueue (call_router k) cl b (call_cmd k) (call_args k))
      as Hacc.
    destruct (Put _ _ _ _ _) as [cl1 b1 [e |] | cl1 b1].
    + destruct Href as [_ ->]. eauto.
    + destruct (run_puts calls cl1 b1) as [[cl2 b2] oks2] eqn:Hrest. simplify_eq.
      rewrite (IH _ _ _ _ _ Hrest), (Hacc cl1 b1 eq_refl), enqueue_total. simpl. lia.
    + destruct Href as [_ ->]. eauto.
Qed.

(** X9. The queues hold the accepted commands and nothing else. In a
    batch built by [Put] no group is empty, no group carries an error,
    every queued command has its reply and error unset, the queue of a
    group lists the verbs and arguments of the accepted calls routed to
    it, in the order of the calls and spelled as the caller wrote them,
    and the queues together hold one command per accepted call. *)
Theorem Put_queues_hold_the_accepted_commands calls cl cl' bat oks :
  run_puts calls cl NewBatch = (cl', bat, oks) →
  (∀ g nb, batches bat !! g = Some nb →
     cmds nb ≠ []
     ∧ err nb = None
     ∧ Forall unset (cmds nb)
     ∧ requests (cmds nb)
         = (λ k, (call_cmd k, call_args k)) <$> routed g (index bat) oks)
  ∧ queued_total bat = length oks.
Proof.
  intros Hrun.
  pose proof (run_puts_built calls cl NewBatch [] cl' bat oks built_empty Hrun) as Hb.
  simpl in Hb. split; [| by rewrite (run_puts_total _ _ _ _ _ _ Hrun)].
  intros g nb Hnb. destruct (built_groups _ _ Hb g nb Hnb) as [He Hc].
  rewrite Hc. repeat split.
  - destruct (built_touch _ _ Hb g) as (i & Hi & _); [by eapply lookup_lt_Some |].
    destruct (lookup_lt_is_Some_2 oks i) as [k Hk].
    { rewrite <- (built_length _ _ Hb). by eapply lookup_lt_Some. }
    pose proof (routed_lookup g _ _ i k Hi Hk) as Hr.
    destruct (routed g (index bat) oks); [by rewrite lookup_nil in Hr | done].
  - done.
  - apply Forall_fmap, Forall_true. done.
  - unfold requests. rewrite <- list_fmap_compose. done.
Qed.

(** ** More on the executor *)

(** X10. The exchange of [doBatch] is pipelined. On an acquired connection
    the executor writes every queued command once, in queue order, then
    flushes once, then reads replies one at a time, at most one per
    command, then releases or shuts down the connection and signals; it
    reads nothing when the flush failed, and it releases the connection
    only after one read per command. Without a connection it only
    signals. *)
Theorem doBatch_is_one_pipelined_exchange got batch :
  match got with
  | (_, Some _) => (doBatch got batch).2 = [EvGetConn; EvDone]
  | (c, None) =>
      ∃ k closing,
        (doBatch got batch).2
          = EvGetConn :: sends batch ++ EvFlush :: replicate k EvReceive
              ++ [closing; EvDone]
        ∧ k ≤ length (cmds batch)
        ∧ (flush c ≠ None → k = 0)
        ∧ (closing = EvShutdown
           ∨ (closing = EvReleaseConn ∧ k = length (cmds batch)))
  end.
Proof.
  doBatch_paths got batch; cbn [snd].
  - done.
  - exists (length (cmds batch)), EvReleaseConn. repeat split; [lia | | by right].
    unfold exchange_ok in Hx. apply andb_true_iff in Hx as [Hf _].
    apply bool_decide_eq_true in Hf. congruence.
  - exists 0, EvShutdown. repeat split; [lia | by left].
  - exists (S k), EvShutdown. repeat split; [lia | congruence | by left].
Qed.

Lemma requests_assign c i cs : requests (assign c i cs) = requests cs.
Proof.
  revert i. induction cs as [| nc cs IH]; intros i; [done |].
  rewrite assign_cons. unfold requests in *. rewrite !fmap_cons. by rewrite IH.
Qed.

(** X11. [doBatch] changes nothing of what was asked: the group keeps its
    node, and its queue keeps the same commands (verbs and arguments) in
    the same order, on every path. Only replies and errors are written. *)
Theorem doBatch_keeps_the_requests got batch :
  node (doBatch got batch).1 = node batch
  ∧ requests (cmds (doBatch got batch).1) = requests (cmds batch).
Proof.
  doBatch_paths got batch; cbn [fst]; (split; [done |]); simpl.
  - done.
  - apply requests_assign.
  - done.
  - unfold requests. rewrite fmap_app. fold (requests (assign c 0 (take k (cmds batch)))).
    rewrite requests_assign. unfold requests. by rewrite <- fmap_app, take_drop.
Qed.

(** X12. The group's error tells whether the exchange went through: after
    [doBatch] the group carries no error exactly when it carried none
    before, a connection was acquired, and the flush and one read per
    command succeeded. An error that the group already carries is never
    cleared. *)
Theorem doBatch_error_iff_exchange_failed got batch :
  err (doBatch got batch).1 = None
  ↔ err batch = None ∧ got.2 = None ∧ exchange_ok got.1 batch = true.
Proof.
  doBatch_paths got batch; cbn [fst snd]; simpl; rewrite ?Hx;
    intuition congruence.
Qed.

(** X13. When the exchange goes through, replies are paired with commands
    by position: after [doBatch] the [j]-th command of the queue has the
    [j]-th reply read on the connection in its reply field and nil in its
    error field, with its verb and arguments as they were; the queue has
    the same length and the group's error field is left as it was. *)
Theorem doBatch_pairs_replies_by_position c batch :
  exchange_ok c batch = true →
  err (doBatch (c, None) batch).1 = err batch
  ∧ length (cmds (doBatch (c, None) batch).1) = length (cmds batch)
  ∧ ∀ j nc, cmds batch !! j = Some nc →
      ∃ nc', cmds (doBatch (c, None) batch).1 !! j = Some nc'
        ∧ reply nc' = (receive c j).1
        ∧ cmd_err nc' = None
        ∧ cmd nc' = cmd nc
        ∧ args nc' = args nc.
Proof.
  intros Hx. rewrite (doBatch_exchanged c batch Hx). cbn [fst]. simpl.
  split; [done |]. split; [apply assign_length |].
  intros j nc Hj. exists (set_reply (receive c j).1 None nc).
  split; [by rewrite assign_lookup, Hj | done].
Qed.

(** ** More on the dispatcher *)

Lemma reconstruct_returns idx bs acc :
  enough bs idx →
  (∃ rs, reconstruct bs idx acc = RunReturn (foldl slice_append acc rs) None
     ∧ length rs = length idx
     ∧ ∀ g nb, g ∈ idx → bs !! g = Some nb → err nb = None)
  ∨ (∃ g nb e, g ∈ idx ∧ bs !! g = Some nb ∧ err nb = Some e
       ∧ reconstruct bs idx acc = RunReturn None (Some e)).
Proof.
  revert bs acc. induction idx as [| g0 idx IH]; intros bs acc Hen.
  - left. exists []. split; [done |]. split; [done |].
    intros g nb Hg. by apply elem_of_nil in Hg.
  - destruct (enough_head _ _ _ Hen) as (nb0 & Hnb0 & Hstep).
    destruct (err nb0) as [e |] eqn:He0.
    + right. exists g0, nb0, e. repeat split; [by left | done.. |].
      simpl. by rewrite Hnb0, He0.
    + destruct (Hstep eq_refl) as (nc0 & rest & Hcmds & Hen').
      assert (g0 < length bs) as Hlt by (by eapply lookup_lt_Some).
      simpl. rewrite Hnb0, He0, Hcmds.
      destruct (IH (<[g0 := set_cmds rest nb0]> bs) (slice_append acc (reply nc0)) Hen')
        as [(rs & Hrun & Hlen & Hclean) | (g & nb & e & Hg & Hnb & He & Hrun)].
      * left. exists (reply nc0 :: rs). split; [done |]. split; [simpl; lia |].
        intros g nb Hg Hnb. destruct (decide (g = g0)) as [-> | Hne]; [congruence |].
        apply elem_of_cons in Hg as [-> | Hg]; [done |].
        apply (Hclean g nb Hg). by rewrite list_lookup_insert_ne.
      * right. destruct (decide (g = g0)) as [-> | Hne].
        { rewrite list_lookup_insert_eq in Hnb by done. simplify_eq/=; congruence. }
        rewrite list_lookup_insert_ne in Hnb by done.
        exists g, nb, e. repeat split; [by right | done..].
Qed.

(** X14. On a batch built by [Put], [RunBatch] always returns: it never
    panics on an index and never stays blocked on a completion signal.
    It returns all or nothing: a nil error with one reply per accepted
    call when no group carries an error, and otherwise an error with the
    nil reply list. *)
Theorem RunBatch_returns_all_or_nothing calls cl pool cl' bat oks :
  run_puts calls cl NewBatch = (cl', bat, oks) →
  ∃ replies e,
    RunBatch pool bat = RunReturn replies e
    ∧ (e = None ↔ ∀ g r, execute pool (batches bat) !! g = Some r → err r.1 = None)
    ∧ (e = None → slice_len replies = length oks)
    ∧ (e ≠ None → replies = None).
Proof.
  intros Hrun.
  pose proof (run_puts_built calls cl NewBatch [] cl' bat oks built_empty Hrun) as Hb.
  simpl in Hb. rewrite RunBatch_reconstruct.
  destruct (reconstruct_returns (index bat) ((execute pool (batches bat)).*1) None
              (built_enough pool bat oks Hb))
    as [(rs & -> & Hlen & Hclean) | (g & nb & e & Hg & Hnb & He & ->)].
  - exists (foldl slice_append None rs), None. repeat split; [| | done].
    + intros _ g r Hr.
      assert (g < length (batches bat)) as Hlt.
      { apply lookup_lt_Some in Hr. unfold execute in Hr. by rewrite length_imap in Hr. }
      destruct (built_touch _ _ Hb g Hlt) as (i & Hi & _).
      apply (Hclean g r.1); [by eapply list_elem_of_lookup_2 |].
      by rewrite list_lookup_fmap, Hr.
    + intros _. by rewrite slice_extend_nil_len, Hlen, (built_length _ _ Hb).
  - exists None, (Some e). repeat split; [done | | done].
    intros Hall. rewrite list_lookup_fmap in Hnb.
    destruct (execute pool (batches bat) !! g) as [r |] eqn:Hr; simplify_eq/=.
    specialize (Hall g r Hr). congruence.
Qed.

Lemma drain_empties idx bs :
  Forall (λ g, g < length bs) idx →
  (∀ g nb, bs !! g = Some nb →
     err nb = None ∧ length (cmds nb) = occurrences g idx) →
  length (drain bs idx) = length bs
  ∧ ∀ g nb, drain bs idx !! g = Some nb → err nb = None ∧ cmds nb = [].
Proof.
  revert bs. induction idx as [| g0 idx IH]; intros bs Hrange Hbs.
  - split; [done |]. intros g nb Hnb. destruct (Hbs g nb Hnb) as [He Hlen].
    split; [done |]. by apply nil_length_inv.
  - apply Forall_cons in Hrange as [Hg0 Hrange].
    destruct (lookup_lt_is_Some_2 bs g0 Hg0) as [nb0 Hnb0].
    destruct (Hbs g0 nb0 Hnb0) as [He0 Hlen0].
    rewrite occurrences_cons, decide_True in Hlen0 by done.
    destruct (cmds nb0) as [| nc0 rest] eqn:Hcmds; simpl in Hlen0; [lia |].
    simpl. rewrite Hnb0, He0, Hcmds.
    destruct (IH (<[g0 := set_cmds rest nb0]> bs)) as [Hlen Hempty].
    + by rewrite length_insert.
    + intros g nb. destruct (decide (g = g0)) as [-> | Hne].
      * rewrite list_lookup_insert_eq by done. intros [= <-]. simpl.
        split; [done | lia].
      * rewrite list_lookup_insert_ne by done. intros Hnb.
        destruct (Hbs g nb Hnb) as [He Hl]. split; [done |].
        by rewrite occurrences_cons, decide_False in Hl.
    + split; [by rewrite Hlen, length_insert | done].
Qed.

(** X15. A batch is used up by one run. After a [RunBatch] that returned
    replies for a batch built by at least one accepted call, every queue
    is empty, and a second [RunBatch] on the same batch never returns
    replies: it returns the error of the first group of the index when
    that group gets no connection or fails to flush, and panics otherwise,
    on the head of an empty queue. *)
Theorem RunBatch_uses_up_the_batch calls cl pool pool' cl' bat oks :
  run_puts calls cl NewBatch = (cl', bat, oks) →
  oks ≠ [] →
  (∀ g r, execute pool (batches bat) !! g = Some r → err r.1 = None) →
  (∀ g nb, batches (after_run pool bat) !! g = Some nb → cmds nb = [])
  ∧ ∃ g0, index bat !! 0 = Some g0
      ∧ RunBatch pool' (after_run pool bat)
          = match pool' g0 with
            | (_, Some e) => RunReturn None (Some e)
            | (c, None) =>
                match flush c with
                | Some e => RunReturn None (Some e)
                | None => RunPanic
                end
            end.
Proof.
  intros Hrun Hoks Hclean.
  pose proof (run_puts_built calls cl NewBatch [] cl' bat oks built_empty Hrun) as Hb.
  simpl in Hb.
  destruct (drain_empties (index bat) ((execute pool (batches bat)).*1))
    as [Hlen Hempty].
  { unfold execute. rewrite length_fmap, length_imap. apply (built_range _ _ Hb). }
  { intros g nb Hnb. rewrite list_lookup_fmap, execute_lookup in Hnb.
    destruct (batches bat !! g) as [nb0 |] eqn:Hnb0; simplify_eq/=.
    split.
    - apply (Hclean g). by rewrite execute_lookup, Hnb0.
    - destruct (doBatch_group (pool g) nb0) as (_ & -> & _).
      destruct (built_groups _ _ Hb g nb0 Hnb0) as [_ ->].
      rewrite length_fmap. apply routed_length, (built_length _ _ Hb). }
  split; [intros g nb Hnb; by apply (Hempty g nb) |].
  destruct (index bat) as [| g0 idx] eqn:Hidx.
  { pose proof (built_length _ _ Hb) as Hl. rewrite Hidx in Hl.
    by destruct oks. }
  exists g0. split; [done |].
  rewrite RunBatch_reconstruct. cbn [after_run index batches]. rewrite Hidx.
  assert (g0 < length (drain ((execute pool (batches bat)).*1) (g0 :: idx))) as Hg0.
  { rewrite Hlen. unfold execute. rewrite length_fmap, length_imap.
    pose proof (built_range _ _ Hb) as Hr. rewrite Hidx in Hr.
    by apply Forall_cons in Hr as [? _]. }
  destruct (lookup_lt_is_Some_2 _ _ Hg0) as [nb0 Hnb0].
  destruct (Hempty g0 nb0 Hnb0) as [He0 Hc0].
  cbn [reconstruct]. rewrite list_lookup_fmap, execute_lookup, Hnb0. cbn [fmap option_fmap option_map].
  destruct (pool' g0) as [c [e |]]; [done |].
  unfold doBatch. destruct (flush c) as [e |]; [done |].
  rewrite Hc0. simpl. by rewrite He0.
Qed.

End Batch.

(** ** The functions on the sample data *)

Ltac verb_is_keyed :=
  split; [reflexivity |];
  split; apply (bool_decide_unpack _); vm_compute; exact I.

Example run_puts_ABAAB :
  run_puts plain_ToUpper plain_EqualFold calls_ABAAB idle_cluster NewBatch
    = (idle_cluster, batch_ABAAB, calls_ABAAB).
Proof. reflexivity. Qed.

Example RunBatch_ABAAB :
  RunBatch healthy_pool batch_ABAAB
    = RunReturn (Some [I_int 0; I_int 10; I_int 1; I_int 2; I_int 11]) None.
Proof. reflexivity. Qed.

Example RunBatch_AAB_flush_fails :
  RunBatch pool_flush_fails_on_0 batch_AAB = RunReturn None (Some "broken pipe").
Proof. reflexivity. Qed.

Example doBatch_second_read_fails :
  doBatch (conn_second_read_fails, None) queue_of_three
    = (mkNodeBatch node_A
         [set_reply (I_string "OK") None (queued "SET" "a");
          queued "GET" "a"; queued "GET" "b"]
         (Some "EOF"),
       [EvGetConn; EvSend "SET" [I_bytes "a"]; EvSend "GET" [I_bytes "a"];
        EvSend "GET" [I_bytes "b"]; EvFlush; EvReceive; EvReceive;
        EvShutdown; EvDone]).
Proof. reflexivity. Qed.

Example run_puts_mixed :
  run_puts plain_ToUpper plain_EqualFold calls_mixed idle_cluster NewBatch
    = (mkCluster true node_B, batch_mixed, accepted_mixed).
Proof. reflexivity. Qed.

Example Put_EXEC_joins_the_nil_group :
  Put plain_ToUpper plain_EqualFold (route_to node_A) pinned_cluster batch_mixed
      "exec" []
    = PutReturn (mkCluster false node_A)
        (mkBatch
           [mkNodeBatch node_A [queued "SET" "k1"; new_command "Ping" []] None;
            mkNodeBatch None [new_command "multi" []; new_command "exec" []] None;
            mkNodeBatch node_B [queued "GET" "k2"] None]
           [0; 1; 2; 0; 1])
        None.
Proof. reflexivity. Qed.

Example run_puts_MULTI_EXEC :
  run_puts plain_ToUpper plain_EqualFold
      [mkCall (route_to node_A) "MULTI" []; mkCall (route_to node_A) "EXEC" []]
      idle_cluster NewBatch
    = (idle_cluster,
       mkBatch [mkNodeBatch None [new_command "MULTI" []; new_command "EXEC" []] None]
               [0; 0],
       [mkCall (route_to node_A) "MULTI" []; mkCall (route_to node_A) "EXEC" []]).
Proof. reflexivity. Qed.

Example Put_same_slot_error_on_bytes_key :
  Put plain_ToUpper plain_EqualFold (route_to node_B) pinned_cluster NewBatch
      "SET" [I_bytes "k"; I_string "v"]
    = PutReturn pinned_cluster NewBatch
        (Some "transaction command[SET] key[k] not hashed in the same slot").
Proof. reflexivity. Qed.

Lemma RunBatch_replies_in_submission_order_witness :
  ∃ replies,
    RunBatch healthy_pool batch_ABAAB = RunReturn replies None
    ∧ slice_len replies = length calls_ABAAB
    ∧ ∀ i k, calls_ABAAB !! i = Some k →
        ∃ g nb v,
          index batch_ABAAB !! i = Some g
          ∧ batches batch_ABAAB !! g = Some nb
          ∧ cmds nb !! rank (index batch_ABAAB) i g = Some (command_of k)
          ∧ v = (receive (healthy_pool g).1 (rank (index batch_ABAAB) i g)).1
          ∧ cmds (doBatch (healthy_pool g) nb).1 !! rank (index batch_ABAAB) i g
              = Some (set_reply v None (command_of k))
          ∧ slice_at replies i = Some v.
Proof.
  apply (RunBatch_replies_in_submission_order plain_ToUpper plain_EqualFold
           calls_ABAAB idle_cluster healthy_pool idle_cluster).
  - reflexivity.
  - intros [| [| g]] r Hr; vm_compute in Hr; [| | discriminate Hr];
      injection Hr as <-; reflexivity.
Defined.

Lemma Put_rejected_leaves_batch_unchanged_witness :
  ∃ e b',
    Put plain_ToUpper plain_EqualFold (route_to node_A) idle_cluster batch_AAB
        "mSet" [I_bytes "a"; I_int 1; I_bytes "b"; I_int 2]
      = PutReturn idle_cluster b' (Some e)
    ∧ b' = batch_AAB
    ∧ length (batches b') = length (batches batch_AAB)
    ∧ length (index b') = length (index batch_AAB).
Proof.
  apply (Put_rejected_leaves_batch_unchanged plain_ToUpper plain_EqualFold).
  left. exists "MSET". split; [repeat constructor | split; reflexivity].
Defined.

Lemma Put_same_slot_violation_panics_witness :
  Put plain_ToUpper plain_EqualFold (route_to node_B) pinned_cluster batch_AAB
      "SET" [I_string "k"; I_string "v"]
    = PutPanic pinned_cluster batch_AAB.
Proof.
  apply (Put_same_slot_violation_panics plain_ToUpper plain_EqualFold
           (route_to node_B) pinned_cluster batch_AAB "SET" (I_string "k")
           [I_string "v"] node_B).
  - verb_is_keyed.
  - reflexivity.
  - discriminate.
  - reflexivity.
  - discriminate.
  - reflexivity.
Defined.

(** C4, as first stated, fails: [Put] of MULTI on a new batch returns no
    error and leaves a batch with one group and one index entry. *)
Lemma Put_MULTI_changes_the_batch :
  Put plain_ToUpper plain_EqualFold (route_to node_A) idle_cluster NewBatch "MULTI" []
    = PutReturn (mkCluster true None)
        (mkBatch [mkNodeBatch None [new_command "MULTI" []] None] [0]) None
  ∧ ¬ (∃ cl',
         Put plain_ToUpper plain_EqualFold (route_to node_A) idle_cluster NewBatch
             "MULTI" []
           = PutReturn cl' NewBatch None).
Proof.
  split; [reflexivity |]. intros [cl' H]. vm_compute in H. discriminate H.
Qed.

Lemma Put_transaction_verb_is_enqueued_witness :
  ∃ b',
    Put plain_ToUpper plain_EqualFold (route_to node_A) pinned_cluster batch_mixed
        "exec" []
      = PutReturn (mkCluster (bool_decide ("EXEC" = "MULTI"))
                             (transactionNode pinned_cluster)) b' None
    ∧ ((∃ g nb,
          batches batch_mixed !! g = Some nb
          ∧ node nb = None
          ∧ (∀ j nb', j < g → batches batch_mixed !! j = Some nb' → node nb' ≠ None)
          ∧ batches b'
              = <[g := mkNodeBatch None (cmds nb ++ [mkCommand "exec" [] I_nil None])
                                   (err nb)]>
                  (batches batch_mixed)
          ∧ index b' = index batch_mixed ++ [g])
       ∨ ((∀ nb, nb ∈ batches batch_mixed → node nb ≠ None)
          ∧ batches b'
              = batches batch_mixed
                  ++ [mkNodeBatch None [mkCommand "exec" [] I_nil None] None]
          ∧ index b' = index batch_mixed ++ [length (batches batch_mixed)])).
Proof.
  apply (Put_transaction_verb_is_enqueued plain_ToUpper plain_EqualFold).
  - repeat constructor.
  - split; reflexivity.
Defined.

Lemma RunBatch_returns_first_error_witness :
  ∃ i g r e,
    index batch_AAB !! i = Some g
    ∧ execute pool_flush_fails_on_0 (batches batch_AAB) !! g = Some r
    ∧ err r.1 = Some e
    ∧ (∀ j h r', j < i → index batch_AAB !! j = Some h →
         execute pool_flush_fails_on_0 (batches batch_AAB) !! h = Some r' →
         err r'.1 = None)
    ∧ RunBatch pool_flush_fails_on_0 batch_AAB = RunReturn None (Some e).
Proof.
  apply (RunBatch_returns_first_error plain_ToUpper plain_EqualFold
           calls_AAB idle_cluster pool_flush_fails_on_0 idle_cluster batch_AAB calls_AAB).
  - reflexivity.
  - exists 0, (doBatch (pool_flush_fails_on_0 0) (mkNodeBatch node_A
      [queued "SET" "k1"; queued "GET" "k1"] None)).
    split; [reflexivity | discriminate].
Defined.

Lemma doBatch_read_failure_leaves_rest_unset_witness :
  let batch' := (doBatch (conn_second_read_fails, None) queue_of_three).1 in
  err batch' = Some "EOF"
  ∧ (∀ j nc, j < 1 → cmds queue_of_three !! j = Some nc →
       cmds batch' !! j = Some (set_reply (receive conn_second_read_fails j).1 None nc))
  ∧ drop 1 (cmds batch') = drop 1 (cmds queue_of_three)
  ∧ (Forall unset (cmds queue_of_three) → Forall unset (drop 1 (cmds batch'))).
Proof.
  apply (doBatch_read_failure_leaves_rest_unset conn_second_read_fails queue_of_three 1 "EOF").
  - reflexivity.
  - simpl. lia.
  - intros j Hj. assert (j = 0) as -> by lia. reflexivity.
  - reflexivity.
Defined.

Lemma Put_index_invariant_witness :
  length (index batch_mixed) = length accepted_mixed
  ∧ Forall (λ g, g < length (batches batch_mixed)) (index batch_mixed)
  ∧ NoDup (node <$> batches batch_mixed)
  ∧ first_touch_order (index batch_mixed) (length (batches batch_mixed))
  ∧ node <$> batches batch_mixed `prefix_of` (node <$> batches batch_mixed) ++ [Some 3]
  ∧ index batch_mixed `prefix_of` index batch_mixed ++ [3].
Proof.
  apply (Put_index_invariant plain_ToUpper plain_EqualFold
           calls_mixed [mkCall (route_to (Some 3)) "PING" []] idle_cluster
           (mkCluster true node_B) batch_mixed accepted_mixed
           (mkCluster true node_B)
           (mkBatch (batches batch_mixed
                       ++ [mkNodeBatch (Some 3) [new_command "PING" []] None])
                    (index batch_mixed ++ [3]))
           [mkCall (route_to (Some 3)) "PING" []]).
  - reflexivity.
  - reflexivity.
Defined.

Lemma Put_EXEC_keeps_pinned_node_witness :
  ∃ b1 b2,
    Put plain_ToUpper plain_EqualFold (route_to node_A) pinned_cluster batch_AAB "EXEC" []
      = PutReturn (set_transactionEnable false pinned_cluster) b1 None
    ∧ Put plain_ToUpper plain_EqualFold (route_to node_A)
          (set_transactionEnable false pinned_cluster) b1 "MULTI" []
        = PutReturn (set_transactionEnable true pinned_cluster) b2 None
    ∧ transactionNode (set_transactionEnable true pinned_cluster)
        = transactionNode pinned_cluster
    ∧ Put plain_ToUpper plain_EqualFold (route_to node_B)
          (set_transactionEnable true pinned_cluster) b2 "SET" [I_bytes "k"; I_bytes "v"]
        = same_slot_failure (set_transactionEnable true pinned_cluster) b2 "SET" (I_bytes "k")
    ∧ (∀ rt cl0 b0 c0 a0, transactionNode cl0 ≠ None →
         transactionNode (state_after (Put plain_ToUpper plain_EqualFold rt cl0 b0 c0 a0)).1
           = transactionNode cl0).
Proof.
  apply (Put_EXEC_keeps_pinned_node plain_ToUpper plain_EqualFold
           (route_to node_A) (route_to node_A) (route_to node_B)
           pinned_cluster batch_AAB "EXEC" [] "MULTI" [] "SET" (I_bytes "k")
           [I_bytes "v"] node_B).
  - split; reflexivity.
  - split; reflexivity.
  - verb_is_keyed.
  - discriminate.
  - reflexivity.
  - discriminate.
Defined.


Lemma Put_panics_only_in_the_same_slot_check_witness :
  is_keyed plain_ToUpper plain_EqualFold "SET"
  ∧ transactionEnable pinned_cluster = true
  ∧ transactionNode pinned_cluster ≠ None
  ∧ ∃ key rest n,
      [I_string "k"; I_string "v"] = key :: rest
      ∧ getNodeByKey (route_to node_B) key = (n, None)
      ∧ n ≠ transactionNode pinned_cluster
      ∧ assert_bytes key = None.
Proof.
  apply (Put_panics_only_in_the_same_slot_check plain_ToUpper plain_EqualFold
           (route_to node_B) pinned_cluster batch_AAB "SET"
           [I_string "k"; I_string "v"] pinned_cluster batch_AAB).
  reflexivity.
Defined.

Lemma Put_verbs_in_any_letter_case_witness :
  (map_bytes upper_byte "mSeTnX" ∈ multi_key_verbs →
     Put plain_ToUpper plain_EqualFold (route_to node_A) idle_cluster batch_AAB
         "mSeTnX" [I_bytes "a"; I_int 1]
       = PutReturn idle_cluster batch_AAB (Some ("Put: " +:+ "mSeTnX" +:+ " not supported")))
  ∧ (map_bytes upper_byte "mSeTnX" = "MULTI" →
       Put plain_ToUpper plain_EqualFold (route_to node_A) idle_cluster batch_AAB
           "mSeTnX" [I_bytes "a"; I_int 1]
         = PutReturn (set_transactionEnable true idle_cluster)
             (enqueue None "mSeTnX" [I_bytes "a"; I_int 1] batch_AAB) None)
  ∧ (map_bytes upper_byte "mSeTnX" = "EXEC" →
       Put plain_ToUpper plain_EqualFold (route_to node_A) idle_cluster batch_AAB
           "mSeTnX" [I_bytes "a"; I_int 1]
         = PutReturn (set_transactionEnable false idle_cluster)
             (enqueue None "mSeTnX" [I_bytes "a"; I_int 1] batch_AAB) None)
  ∧ (map_bytes upper_byte "mSeTnX" = "PING" →
       Put plain_ToUpper plain_EqualFold (route_to node_A) idle_cluster batch_AAB
           "mSeTnX" [I_bytes "a"; I_int 1]
         = match getRandomNode (route_to node_A) with
           | (_, Some e) => PutReturn idle_cluster batch_AAB (Some ("Put PING: " +:+ e))
           | (n, None) =>
               PutReturn idle_cluster
                 (enqueue n "mSeTnX" [I_bytes "a"; I_int 1] batch_AAB) None
           end).
Proof.
  apply (Put_verbs_in_any_letter_case plain_ToUpper plain_EqualFold
           (route_to node_A) idle_cluster batch_AAB "mSeTnX" [I_bytes "a"; I_int 1]).
  reflexivity.
Defined.

Lemma Put_accepts_in_transaction_on_pinned_node_witness :
  ∃ key rest,
    [I_string "k"; I_string "v"] = key :: rest
    ∧ getNodeByKey (route_to node_B) key = (transactionNode (mkCluster true node_B), None)
    ∧ transactionEnable (mkCluster true node_B) = true
    ∧ (transactionNode (mkCluster true None) ≠ None →
         mkCluster true node_B = mkCluster true None).
Proof.
  apply (Put_accepts_in_transaction_on_pinned_node plain_ToUpper plain_EqualFold
           (route_to node_B) (mkCluster true None) NewBatch "SET"
           [I_string "k"; I_string "v"] (mkCluster true node_B)
           (mkBatch [mkNodeBatch node_B [new_command "SET" [I_string "k"; I_string "v"]] None]
                    [0])).
  - verb_is_keyed.
  - reflexivity.
  - reflexivity.
Defined.

Lemma transaction_on_one_node_is_accepted_witness :
  ∃ b',
    run_puts plain_ToUpper plain_EqualFold
        (mkCall (route_to node_B) "MULTI" []
           :: [put_on node_A "SET" "k1"; put_on node_A "GET" "k1"]
           ++ [mkCall (route_to node_B) "EXEC" []])
        idle_cluster NewBatch
      = (mkCluster false (Some 1), b',
         mkCall (route_to node_B) "MULTI" []
           :: [put_on node_A "SET" "k1"; put_on node_A "GET" "k1"]
           ++ [mkCall (route_to node_B) "EXEC" []]).
Proof.
  apply (transaction_on_one_node_is_accepted plain_ToUpper plain_EqualFold
           (route_to node_B) (route_to node_B) "MULTI" [] "EXEC" []
           [put_on node_A "SET" "k1"; put_on node_A "GET" "k1"]
           idle_cluster NewBatch 1).
  - split; reflexivity.
  - split; reflexivity.
  - constructor; [| constructor; [| constructor]];
      (split; [verb_is_keyed | eexists _, _; split; reflexivity]).
  - left. reflexivity.
Defined.

Lemma Put_never_touches_queued_commands_witness :
  ∃ nb',
    batches (enqueue node_A "GET" [I_bytes "k9"] batch_AAB) !! 0 = Some nb'
    ∧ node nb' = node_A
    ∧ err nb' = None
    ∧ [queued "SET" "k1"; queued "GET" "k1"] `prefix_of` cmds nb'.
Proof.
  exact (Put_never_touches_queued_commands plain_ToUpper plain_EqualFold
           [put_on node_A "GET" "k9"] idle_cluster batch_AAB idle_cluster
           (enqueue node_A "GET" [I_bytes "k9"] batch_AAB)
           [put_on node_A "GET" "k9"] eq_refl
           0 (mkNodeBatch node_A [queued "SET" "k1"; queued "GET" "k1"] None) eq_refl).
Defined.

Lemma Put_merges_commands_by_node_witness :
  (∀ i k, calls_ABAAB !! i = Some k →
     ∃ g nb, index batch_ABAAB !! i = Some g ∧ batches batch_ABAAB !! g = Some nb
       ∧ node nb = target plain_ToUpper plain_EqualFold k)
  ∧ (∀ i j ki kj, calls_ABAAB !! i = Some ki → calls_ABAAB !! j = Some kj →
       (index batch_ABAAB !! i = index batch_ABAAB !! j
        ↔ target plain_ToUpper plain_EqualFold ki
            = target plain_ToUpper plain_EqualFold kj)).
Proof.
  apply (Put_merges_commands_by_node plain_ToUpper plain_EqualFold
           calls_ABAAB idle_cluster idle_cluster batch_ABAAB calls_ABAAB).
  reflexivity.
Defined.

Lemma Put_queues_hold_the_accepted_commands_witness :
  (∀ g nb, batches batch_mixed !! g = Some nb →
     cmds nb ≠ []
     ∧ err nb = None
     ∧ Forall unset (cmds nb)
     ∧ requests (cmds nb)
         = (λ k, (call_cmd k, call_args k))
             <$> routed g (index batch_mixed) accepted_mixed)
  ∧ queued_total batch_mixed = length accepted_mixed.
Proof.
  apply (Put_queues_hold_the_accepted_commands plain_ToUpper plain_EqualFold
           calls_mixed idle_cluster (mkCluster true node_B) batch_mixed accepted_mixed).
  reflexivity.
Defined.

Lemma doBatch_pairs_replies_by_position_witness :
  err (doBatch ((healthy_pool 1).1, None) queue_of_three).1 = err queue_of_three
  ∧ length (cmds (doBatch ((healthy_pool 1).1, None) queue_of_three).1)
      = length (cmds queue_of_three)
  ∧ ∀ j nc, cmds queue_of_three !! j = Some nc →
      ∃ nc', cmds (doBatch ((healthy_pool 1).1, None) queue_of_three).1 !! j = Some nc'
        ∧ reply nc' = (receive (healthy_pool 1).1 j).1
        ∧ cmd_err nc' = None
        ∧ cmd nc' = cmd nc
        ∧ args nc' = args nc.
Proof.
  apply (doBatch_pairs_replies_by_position (healthy_pool 1).1 queue_of_three).
  reflexivity.
Defined.

Example doBatch_healthy_replies :
  reply <$> cmds (doBatch (healthy_pool 1) queue_of_three).1
    = [I_int 10; I_int 11; I_int 12].
Proof. reflexivity. Qed.

Lemma RunBatch_returns_all_or_nothing_witness :
  ∃ replies e,
    RunBatch pool_flush_fails_on_0 batch_AAB = RunReturn replies e
    ∧ (e = None ↔ ∀ g r, execute pool_flush_fails_on_0 (batches batch_AAB) !! g = Some r →
                     err r.1 = None)
    ∧ (e = None → slice_len replies = length calls_AAB)
    ∧ (e ≠ None → replies = None).
Proof.
  apply (RunBatch_returns_all_or_nothing plain_ToUpper plain_EqualFold
           calls_AAB idle_cluster pool_flush_fails_on_0 idle_cluster batch_AAB calls_AAB).
  reflexivity.
Defined.

Lemma RunBatch_uses_up_the_batch_witness :
  (∀ g nb, batches (after_run healthy_pool batch_ABAAB) !! g = Some nb → cmds nb = [])
  ∧ ∃ g0, index batch_ABAAB !! 0 = Some g0
      ∧ RunBatch healthy_pool (after_run healthy_pool batch_ABAAB)
          = match healthy_pool g0 with
            | (_, Some e) => RunReturn None (Some e)
            | (c, None) =>
                match flush c with
                | Some e => RunReturn None (Some e)
                | None => RunPanic
                end
            end.
Proof.
  apply (RunBatch_uses_up_the_batch plain_ToUpper plain_EqualFold
           calls_ABAAB idle_cluster healthy_pool healthy_pool idle_cluster
           batch_ABAAB calls_ABAAB).
  - reflexivity.
  - discriminate.
  - intros [| [| g]] r Hr; vm_compute in Hr; [| | discriminate Hr];
      injection Hr as <-; reflexivity.
Defined.

Example RunBatch_twice_panics :
  RunBatch healthy_pool (after_run healthy_pool batch_ABAAB) = RunPanic.
Proof. reflexivity. Qed.
